(** * Duplicate-case detection and resolution

    A shallow embedding of the duplicates router of the Desaparecidos back
    end (the second module of src/routes/alerts.ts, with the middleware of
    src/middleware/audit.ts and the tables of prisma/migrations): the two
    string helpers
    [levenshteinDistance] and [calculateSimilarity], the pairwise scorer of
    the [POST /detect] handler, the persistence loop of that handler, the
    [GET /] listing and the [PATCH /:id/resolve] handler, over an explicit
    model of the three Prisma tables they touch.

    Conventions.
    - A JavaScript string is the list of its UTF-16 code units.
    - A JavaScript number is a rational ([Q]).  The arithmetic of the
      helpers and of the scorer is exact, which is enough for what is an
      order, a symmetry or an exact 0 or 1; where the value of a quotient
      matters the scorer is given again with every operation rounded to
      the nearest double ([pairScore64]).  Integers that index arrays are
      [nat].
    - [null]/[undefined] is [None].
    - A handler is a function from the database (and the request) to the
      new database and the response; an exception that reaches the
      handler's [catch] is the 500 response. *)

From Stdlib Require Import ZArith QArith Qminmax Qround Qabs Qpower Lia Lqa.
From Stdlib Require Import String Ascii DecimalString.
From stdpp Require Import base option list sorting.

Local Open Scope nat_scope.

(** ** JavaScript strings and arrays *)

Definition code_unit := N.
Definition jsstring := list code_unit.

(** A literal of the source, as code units. *)
Definition js (s : string) : jsstring :=
  map N_of_ascii (list_ascii_of_string s).

(** [s.charAt(i)]: the one-unit string at [i], the empty string out of range. *)
Definition charAt (s : jsstring) (i : nat) : jsstring :=
  match s !! i with
  | Some c => [c]
  | None => []
  end.

(** [a[i] = v].  Inside the array the element is replaced, at
    [i = a.length] the array grows by one; a write further out would leave
    holes, which the model does not represent ([None]). *)
Definition array_set {A} (a : list A) (i : nat) (v : A) : option (list A) :=
  if decide (i < length a) then Some (<[i:=v]> a)
  else if decide (i = length a) then Some (a ++ [v])
  else None.

(** [m[i][j]]; [None] when the row or the element is [undefined]. *)
Definition matrix_get (m : list (list nat)) (i j : nat) : option nat :=
  row ← m !! i; row !! j.

(** [m[i][j] = v]. *)
Definition matrix_set (m : list (list nat)) (i j v : nat)
  : option (list (list nat)) :=
  row ← m !! i; row' ← array_set row j v; Some (<[i:=row']> m).

(** [for (let i = lo; i < lo + n; i++) body], threading the state. *)
Fixpoint for_loop {St} (n lo : nat) (body : nat → St → option St) (s : St)
  : option St :=
  match n with
  | 0 => Some s
  | S n' => s' ← body lo s; for_loop n' (S lo) body s'
  end.

(** ** Similarity primitives (routes/duplicates, helper functions) *)

Section Levenshtein.
Variables str1 str2 : jsstring.

(** Body of the innermost loop: fills [matrix[i][j]]. *)
Definition fill_cell (i j : nat) (matrix : list (list nat))
  : option (list (list nat)) :=
  if decide (charAt str2 (i - 1) = charAt str1 (j - 1)) then
    v ← matrix_get matrix (i - 1) (j - 1);
    matrix_set matrix i j v
  else
    a ← matrix_get matrix (i - 1) (j - 1);
    b ← matrix_get matrix i (j - 1);
    c ← matrix_get matrix (i - 1) j;
    matrix_set matrix i j (Nat.min (a + 1) (Nat.min (b + 1) (c + 1))).

Definition levenshteinMatrix : option (list (list nat)) :=
  (* for (let i = 0; i <= str2.length; i++) matrix[i] = [i]; *)
  m0 ← for_loop (S (length str2)) 0 (λ i m, array_set m i [i]) [];
  (* for (let j = 0; j <= str1.length; j++) matrix[0][j] = j; *)
  m1 ← for_loop (S (length str1)) 0 (λ j m, matrix_set m 0 j j) m0;
  (* for i in 1..str2.length, for j in 1..str1.length *)
  for_loop (length str2) 1
    (λ i m, for_loop (length str1) 1 (λ j m', fill_cell i j m') m) m1.

Definition levenshteinDistance : option nat :=
  matrix ← levenshteinMatrix;
  matrix_get matrix (length str2) (length str1).
End Levenshtein.

(** The edit distance as the specification words it: the table [d] with
    [d[i][0] = i], [d[0][j] = j], [d[i][j] = d[i-1][j-1]] when the
    characters [a[i-1]] and [b[j-1]] match and
    [1 + min(d[i-1][j], d[i][j-1], d[i-1][j-1])] otherwise. *)
Fixpoint lev_rec (a b : jsstring) (i : nat) : nat → nat :=
  match i with
  | 0 => λ j, j
  | S i' =>
      fix row (j : nat) : nat :=
        match j with
        | 0 => S i'
        | S j' =>
            if decide (a !! i' = b !! j') then lev_rec a b i' j'
            else 1 + Nat.min (lev_rec a b i' (S j'))
                       (Nat.min (row j') (lev_rec a b i' j'))
        end
  end.

Definition edit_distance (a b : jsstring) : nat :=
  lev_rec a b (length a) (length b).

(** A [nat] as a JavaScript number. *)
Definition num (n : nat) : Q := inject_Z (Z.of_nat n).

(** [str1.length > str2.length] is written [length str2 < length str1]. *)
Definition calculateSimilarity (str1 str2 : jsstring) : option Q :=
  let longer := if decide (length str2 < length str1) then str1 else str2 in
  let shorter := if decide (length str2 < length str1) then str2 else str1 in
  if decide (length longer = 0) then Some 1%Q
  else
    distance ← levenshteinDistance longer shorter;
    Some ((num (length longer) - num distance) / num (length longer))%Q.

(** Row [r] of the specification's table for [a] (rows) and [b] (columns),
    up to column [j] (exclusive). *)
Definition table_row (a b : jsstring) (r j : nat) : list nat :=
  map (lev_rec a b r) (seq 0 j).

(** Invariant of the nested loops of [levenshteinDistance]: the rows above
    [i] are complete, row [i] is filled up to column [j] (exclusive), the
    rows below still hold their first cell only. *)
Definition table_inv (str1 str2 : jsstring) (i j : nat)
    (m : list (list nat)) : Prop :=
  length m = S (length str2) ∧
  ∀ r, r ≤ length str2 →
    m !! r = Some (if decide (r < i)
                   then table_row str2 str1 r (S (length str1))
                   else if decide (r = i) then table_row str2 str1 r j
                   else [r]).

(** ** Data model (prisma/migrations) *)

Inductive DuplicateStatus := PENDENTE | CONFIRMADO | REJEITADO | RESOLVIDO.

#[global] Instance DuplicateStatus_eq_dec : EqDecision DuplicateStatus.
Proof. solve_decision. Defined.

(** Table [MissingPerson], restricted to the columns the router reads.
    The four compared fields are optional here because the scorer guards
    each of them; [missingDate] and [createdAt] are [getTime()] values. *)
Record MissingPerson := {
  mp_id : jsstring;
  fullName : option jsstring;
  age : option Z;
  missingDate : option Z;
  province : option jsstring;
  approved : bool;
  createdAt : Z
}.

(** Table [DuplicateCase]. *)
Record DuplicateCase := {
  dc_id : jsstring;
  originalCaseId : jsstring;
  duplicateCaseId : jsstring;
  similarityScore : Q;
  detectedBy : option jsstring;
  detectedAt : Z;
  status : DuplicateStatus;
  resolvedBy : option jsstring;
  resolvedAt : option Z;
  resolutionNotes : option jsstring
}.

(** Table [AuditLog], without [metadata], [ipAddress] and [userAgent]. *)
Record AuditLog := {
  userId : option jsstring;
  action : jsstring;
  entityType : option jsstring;
  entityId : option jsstring;
  details : option jsstring
}.

Record Db := {
  missingPerson : list MissingPerson;
  duplicateCase : list DuplicateCase;
  auditLog : list AuditLog;
  idCounter : nat
}.

(** What the handlers take from outside the router. *)
Record Env := {
  (** [String.prototype.toLowerCase] *)
  toLowerCase : jsstring → jsstring;
  (** the default of [DuplicateCase.id], by number of rows inserted so far *)
  newId : nat → jsstring;
  (** the store fails to insert the row for this ordered pair of cases *)
  createFails : jsstring → jsstring → bool
}.

(** ** Pairwise scorer (POST /detect, scoring loop) *)

(** JavaScript truthiness of a nullable string, number and [Date]. *)
Definition truthy_string (s : option jsstring) : bool :=
  match s with
  | Some (_ :: _) => true
  | _ => false
  end.

Definition truthy_number (n : option Z) : bool :=
  match n with
  | Some n => negb (n =? 0)%Z
  | None => false
  end.

Definition truthy_date (d : option Z) : bool :=
  match d with
  | Some _ => true
  | None => false
  end.

Local Open Scope Q_scope.

(** The running [score] and [factors]. *)
Definition Acc : Type := Q * Q.

(** [if (case1.fullName && case2.fullName) { ... }] *)
Definition nameBlock (env : Env) (case1 case2 : MissingPerson) (acc : Acc)
  : option Acc :=
  if truthy_string (fullName case1) && truthy_string (fullName case2) then
    n1 ← fullName case1; n2 ← fullName case2;
    nameSimilarity ←
      calculateSimilarity (toLowerCase env n1) (toLowerCase env n2);
    Some (acc.1 + nameSimilarity * 0.4, acc.2 + 0.4)
  else Some acc.

(** [if (case1.missingDate && case2.missingDate) { ... }] *)
Definition dateBlock (case1 case2 : MissingPerson) (acc : Acc) : option Acc :=
  if truthy_date (missingDate case1) && truthy_date (missingDate case2) then
    t1 ← missingDate case1; t2 ← missingDate case2;
    let dateDiff := inject_Z (Z.abs (t1 - t2)) in
    let daysDiff := dateDiff / inject_Z (1000 * 60 * 60 * 24) in
    let dateSimilarity :=
      if Qle_bool daysDiff 30 then 1 - daysDiff / 30 else 0 in
    Some (acc.1 + dateSimilarity * 0.2, acc.2 + 0.2)
  else Some acc.

(** [if (case1.province && case2.province) { ... }] *)
Definition provinceBlock (case1 case2 : MissingPerson) (acc : Acc)
  : option Acc :=
  if truthy_string (province case1) && truthy_string (province case2) then
    let locationSimilarity :=
      if decide (province case1 = province case2) then 1 else 0 in
    Some (acc.1 + locationSimilarity * 0.2, acc.2 + 0.2)
  else Some acc.

(** [if (case1.age && case2.age) { ... }] *)
Definition ageBlock (case1 case2 : MissingPerson) (acc : Acc) : option Acc :=
  if truthy_number (age case1) && truthy_number (age case2) then
    a1 ← age case1; a2 ← age case2;
    let ageDiff := inject_Z (Z.abs (a1 - a2)) in
    let ageSimilarity := if Qle_bool ageDiff 5 then 1 - ageDiff / 5 else 0 in
    Some (acc.1 + ageSimilarity * 0.2, acc.2 + 0.2)
  else Some acc.

(** The body of the inner loop up to [finalScore]. *)
Definition pairScore (env : Env) (case1 case2 : MissingPerson) : option Q :=
  acc ← nameBlock env case1 case2 (0, 0);
  acc ← dateBlock case1 case2 acc;
  acc ← provinceBlock case1 case2 acc;
  acc ← ageBlock case1 case2 acc;
  let '(score, factors) := acc in
  Some (if Qlt_le_dec 0 factors then score / factors else 0).

(** An element of the handler's [duplicates] array. *)
Record Candidate := {
  candOriginalCaseId : jsstring;
  candDuplicateCaseId : jsstring;
  candSimilarityScore : Q
}.

(** [for (let j = i + 1; j < cases.length; j++)], for a fixed [cases[i]]. *)
Fixpoint scoreAgainst (env : Env) (threshold : Q) (case1 : MissingPerson)
    (rest : list MissingPerson) : option (list Candidate) :=
  match rest with
  | [] => Some []
  | case2 :: rest' =>
      finalScore ← pairScore env case1 case2;
      more ← scoreAgainst env threshold case1 rest';
      Some (if Qle_bool threshold finalScore
            then {| candOriginalCaseId := mp_id case1;
                    candDuplicateCaseId := mp_id case2;
                    candSimilarityScore := finalScore |} :: more
            else more)
  end.

(** [for (let i = 0; i < cases.length; i++)]. *)
Fixpoint scoreAll (env : Env) (threshold : Q) (cases : list MissingPerson)
  : option (list Candidate) :=
  match cases with
  | [] => Some []
  | case1 :: rest =>
      here ← scoreAgainst env threshold case1 rest;
      more ← scoreAll env threshold rest;
      Some (here ++ more)
  end.

(** ** Storage operations (the Prisma calls of the router) *)

(** [prisma.missingPerson.findMany({ where: { approved: true },
    orderBy: { createdAt: 'desc' } })].  Rows with equal [createdAt] keep
    their stored order. *)
Fixpoint insertByCreatedAt (c : MissingPerson) (l : list MissingPerson)
  : list MissingPerson :=
  match l with
  | [] => [c]
  | x :: l' =>
      if (createdAt x <=? createdAt c)%Z then c :: x :: l'
      else x :: insertByCreatedAt c l'
  end.

Definition findApprovedCases (db : Db) : list MissingPerson :=
  foldr insertByCreatedAt []
    (List.filter (λ c, approved c) (missingPerson db)).

(** [prisma.duplicateCase.findUnique({ where:
    { originalCaseId_duplicateCaseId: { ... } } })] *)
Definition findUniquePair (db : Db) (original duplicate : jsstring)
  : option DuplicateCase :=
  List.find
    (λ d, bool_decide (originalCaseId d = original
                       ∧ duplicateCaseId d = duplicate))
    (duplicateCase db).

(** [prisma.duplicateCase.create].  [None] is a rejected promise: a store
    failure, or a violation of the unique index on the ordered pair. *)
Definition createDuplicate (env : Env) (db : Db) (dup : Candidate)
    (user : jsstring) (now : Z) : option (Db * DuplicateCase) :=
  if createFails env (candOriginalCaseId dup) (candDuplicateCaseId dup)
  then None
  else
    match findUniquePair db (candOriginalCaseId dup) (candDuplicateCaseId dup)
    with
    | Some _ => None
    | None =>
        let row := {| dc_id := newId env (idCounter db);
                      originalCaseId := candOriginalCaseId dup;
                      duplicateCaseId := candDuplicateCaseId dup;
                      similarityScore := candSimilarityScore dup;
                      detectedBy := Some user;
                      detectedAt := now;
                      status := PENDENTE;
                      resolvedBy := None;
                      resolvedAt := None;
                      resolutionNotes := None |} in
        Some ({| missingPerson := missingPerson db;
                 duplicateCase := duplicateCase db ++ [row];
                 auditLog := auditLog db;
                 idCounter := S (idCounter db) |}, row)
    end.

(** [prisma.duplicateCase.findUnique({ where: { id },
    include: { duplicateCase: true } })]: the row and its second case. *)
Definition findCase (db : Db) (id : jsstring) : option MissingPerson :=
  List.find (λ c, bool_decide (mp_id c = id)) (missingPerson db).

Definition findDuplicate (db : Db) (id : jsstring)
  : option (DuplicateCase * option MissingPerson) :=
  d ← List.find (λ d, bool_decide (dc_id d = id)) (duplicateCase db);
  Some (d, findCase db (duplicateCaseId d)).

(** The [data] of [prisma.duplicateCase.update] in the resolve handler.
    [notes] is [None] when [resolutionNotes] is [undefined]: the update
    then leaves the column as it is. *)
Definition resolveData (newStatus : DuplicateStatus) (user : jsstring)
    (now : Z) (notes : option jsstring) (d : DuplicateCase) : DuplicateCase :=
  {| dc_id := dc_id d;
     originalCaseId := originalCaseId d;
     duplicateCaseId := duplicateCaseId d;
     similarityScore := similarityScore d;
     detectedBy := detectedBy d;
     detectedAt := detectedAt d;
     status := newStatus;
     resolvedBy := Some user;
     resolvedAt := Some now;
     resolutionNotes := match notes with
                        | Some text => Some text
                        | None => resolutionNotes d
                        end |}.

(** [prisma.duplicateCase.update({ where: { id }, data })] *)
Definition updateDuplicate (db : Db) (id : jsstring)
    (data : DuplicateCase → DuplicateCase) : Db :=
  {| missingPerson := missingPerson db;
     duplicateCase :=
       map (λ d, if decide (dc_id d = id) then data d else d)
         (duplicateCase db);
     auditLog := auditLog db;
     idCounter := idCounter db |}.

(** [prisma.missingPerson.delete({ where: { id } })].  [None] when no such
    row exists; both foreign keys of [DuplicateCase] are
    [ON DELETE CASCADE]. *)
Definition deleteMissingPerson (db : Db) (id : jsstring) : option Db :=
  match findCase db id with
  | None => None
  | Some _ =>
      Some {| missingPerson :=
                filter (λ c, mp_id c ≠ id) (missingPerson db);
              duplicateCase :=
                filter (λ d, originalCaseId d ≠ id ∧ duplicateCaseId d ≠ id)
                  (duplicateCase db);
              auditLog := auditLog db;
              idCounter := idCounter db |}
  end.

(** [prisma.auditLog.create({ data })] *)
Definition createAuditLog (db : Db) (entry : AuditLog) : Db :=
  {| missingPerson := missingPerson db;
     duplicateCase := duplicateCase db;
     auditLog := auditLog db ++ [entry];
     idCounter := idCounter db |}.

(** ** The [auditLog] middleware (middleware/audit)

    The wrapped [res.json] appends one entry for every response of an
    authenticated request. *)
Definition middlewareEntry (user action entity : jsstring)
    (paramId : option jsstring) (method path : jsstring) : AuditLog :=
  {| userId := Some user;
     action := action;
     entityType := Some entity;
     entityId := paramId;
     details := Some (action ++ js " - " ++ method ++ js " " ++ path) |}.

(** ** POST /detect *)

Inductive DetectResponse :=
  | Detect200 (duplicates : list DuplicateCase) (total : nat)
  | Detect500.

(** [for (const dup of duplicates)]: the second component is [None] once a
    [create] has thrown, which leaves the loop for the handler's [catch]. *)
Fixpoint persistDuplicates (env : Env) (user : jsstring) (now : Z)
    (duplicates : list Candidate) (db : Db)
    (createdDuplicates : list DuplicateCase)
  : Db * option (list DuplicateCase) :=
  match duplicates with
  | [] => (db, Some createdDuplicates)
  | dup :: rest =>
      match findUniquePair db (candOriginalCaseId dup)
              (candDuplicateCaseId dup) with
      | Some _ => persistDuplicates env user now rest db createdDuplicates
      | None =>
          match createDuplicate env db dup user now with
          | None => (db, None)
          | Some (db', duplicate) =>
              persistDuplicates env user now rest db'
                (createdDuplicates ++ [duplicate])
          end
      end
  end.

(** The handler's [try] block; [threshold] is [req.body.threshold], a
    number when it is sent. *)
Definition detectHandler (env : Env) (db : Db) (user : jsstring) (now : Z)
    (threshold : option Q) : Db * DetectResponse :=
  let threshold := default 0.7 threshold in
  let cases := findApprovedCases db in
  match scoreAll env threshold cases with
  | None => (db, Detect500)
  | Some duplicates =>
      match persistDuplicates env user now duplicates db [] with
      | (db', Some createdDuplicates) =>
          (db', Detect200 createdDuplicates (length createdDuplicates))
      | (db', None) => (db', Detect500)
      end
  end.

Definition detectEntry (user : jsstring) : AuditLog :=
  middlewareEntry user (js "DETECT_DUPLICATES") (js "CASE") None
    (js "POST") (js "/detect").

(** The route: [auditLog('DETECT_DUPLICATES', 'CASE')] around the handler. *)
Definition detectRoute (env : Env) (db : Db) (user : jsstring) (now : Z)
    (threshold : option Q) : Db * DetectResponse :=
  let '(db', response) := detectHandler env db user now threshold in
  (createAuditLog db' (detectEntry user), response).

(** ** GET / *)

(** [orderBy: { similarityScore: 'desc' }] *)
Fixpoint insertByScore (d : DuplicateCase) (l : list DuplicateCase)
  : list DuplicateCase :=
  match l with
  | [] => [d]
  | x :: l' =>
      if Qle_bool (similarityScore x) (similarityScore d) then d :: x :: l'
      else x :: insertByScore d l'
  end.

(** The statuses a resolve request may carry, and all four of the enum. *)
Definition resolveStatusNames : list (jsstring * DuplicateStatus) :=
  [(js "CONFIRMADO", CONFIRMADO); (js "REJEITADO", REJEITADO);
   (js "RESOLVIDO", RESOLVIDO)].

Definition statusNames : list (jsstring * DuplicateStatus) :=
  (js "PENDENTE", PENDENTE) :: resolveStatusNames.

(** [isIn(names)] on a string, with the enum value it names. *)
Definition statusIn (names : list (jsstring * DuplicateStatus)) (s : jsstring)
  : option DuplicateStatus :=
  snd <$> List.find (λ p, bool_decide (p.1 = s)) names.

Inductive ListResponse :=
  | List400
  | List200
      (duplicates :
         list (DuplicateCase * option MissingPerson * option MissingPerson)).

Definition listRoute (db : Db) (queryStatus : option jsstring)
  : Db * ListResponse :=
  let withCases d :=
    (d, findCase db (originalCaseId d), findCase db (duplicateCaseId d)) in
  match queryStatus with
  | None =>
      (db, List200 (map withCases (foldr insertByScore [] (duplicateCase db))))
  | Some s =>
      match statusIn statusNames s with
      | None => (db, List400)
      | Some st =>
          (db, List200 (map withCases
                 (foldr insertByScore []
                    (filter (λ d, status d = st) (duplicateCase db)))))
      end
  end.

(** ** Values of a request body *)

(** A value of a JSON body, as far as the validators of the routes and
    the handlers tell values apart.  [JsCompound] is an array or an object;
    it carries the verdict on it of the standard validator of its field
    ([isIn], [isBoolean]), which takes an array element by element. *)
Inductive JsValue :=
  | JsNull
  | JsBool (b : bool)
  | JsNumber (q : Q)
  | JsString (s : jsstring)
  | JsCompound (accepted : bool).

(** JavaScript truthiness of a field of the body; [None] is [undefined]. *)
Definition truthy (v : option JsValue) : bool :=
  match v with
  | None | Some JsNull => false
  | Some (JsBool b) => b
  | Some (JsNumber q) => negb (Qeq_bool q 0)
  | Some (JsString []) => false
  | Some (JsString (_ :: _)) => true
  | Some (JsCompound _) => true
  end.

(** [isIn(['CONFIRMADO', 'REJEITADO', 'RESOLVIDO'])]: the value, written
    as a string, is one of the three names. *)
Definition isResolveStatus (v : JsValue) : bool :=
  match v with
  | JsString s => bool_decide (is_Some (statusIn resolveStatusNames s))
  | JsCompound accepted => accepted
  | _ => false
  end.

(** [isString()]: [typeof value === 'string']. *)
Definition isString (v : JsValue) : bool :=
  match v with
  | JsString _ => true
  | _ => false
  end.

(** [isBoolean()], not strict: the value, written as a string, is one of
    ['true'], ['false'], ['1'] and ['0']. *)
Definition isBoolean (v : JsValue) : bool :=
  match v with
  | JsNull => false
  | JsBool _ => true
  | JsNumber q => Qeq_bool q 0 || Qeq_bool q 1
  | JsString s => bool_decide (s ∈ [js "true"; js "false"; js "1"; js "0"])
  | JsCompound accepted => accepted
  end.

(** [optional()]: a field that is [undefined] is not validated. *)
Definition optional (check : JsValue → bool) (v : option JsValue) : bool :=
  match v with
  | None => true
  | Some v => check v
  end.

(** ** PATCH /:id/resolve *)

(** [req.body]; a field is [None] when the body does not have it. *)
Record ResolveBody := {
  bodyStatus : option JsValue;
  bodyResolutionNotes : option JsValue;
  bodyDeleteDuplicate : option JsValue
}.

Inductive ResolveResponse :=
  | Resolve400
  | Resolve404
  | Resolve200 (duplicate : DuplicateCase) (message : jsstring)
  | Resolve500.

(** [validationResult(req).isEmpty()] for the chain of the route;
    [param('id').isString()] holds of every route parameter. *)
Definition validationPasses (body : ResolveBody) : bool :=
  match bodyStatus body with
  | None => false
  | Some v => isResolveStatus v
  end
  && optional isString (bodyResolutionNotes body)
  && optional isBoolean (bodyDeleteDuplicate body).

(** The status of a body that passes validation, when it is a string; an
    array that passes is no value of the enum. *)
Definition validateResolve (body : ResolveBody) : option DuplicateStatus :=
  if validationPasses body then
    match bodyStatus body with
    | Some (JsString s) => statusIn resolveStatusNames s
    | _ => None
    end
  else None.

(** [resolutionNotes] as the handler hands it to the update: a string, or
    [undefined]. *)
Definition notesToStore (body : ResolveBody) : option jsstring :=
  match bodyResolutionNotes body with
  | Some (JsString text) => Some text
  | _ => None
  end.

(** [value === text] *)
Definition strictEquals (v : option JsValue) (text : jsstring) : bool :=
  match v with
  | Some (JsString s) => bool_decide (s = text)
  | _ => false
  end.

(** [status === 'CONFIRMADO' && deleteDuplicate] *)
Definition deleteRequested (body : ResolveBody) : bool :=
  strictEquals (bodyStatus body) (js "CONFIRMADO")
  && truthy (bodyDeleteDuplicate body).

Definition deleteEntry (user : jsstring) (duplicate : DuplicateCase)
    (secondCase : MissingPerson) : AuditLog :=
  {| userId := Some user;
     action := js "DELETE_DUPLICATE_CASE";
     entityType := Some (js "CASE");
     entityId := Some (duplicateCaseId duplicate);
     details := Some (js "Caso duplicado deletado: "
                      ++ default (js "null") (fullName secondCase)) |}.

(** The handler.  [prisma.duplicateCase.update] rejects a [status] that is
    not a value of the enum, which the [catch] answers with 500. *)
Definition resolveHandler (env : Env) (db : Db) (user : jsstring) (now : Z)
    (id : jsstring) (body : ResolveBody) : Db * ResolveResponse :=
  if negb (validationPasses body) then (db, Resolve400)
  else
    match findDuplicate db id with
    | None => (db, Resolve404)
    | Some (duplicate, secondCase) =>
        match validateResolve body with
        | None => (db, Resolve500)
        | Some newStatus =>
            let data := resolveData newStatus user now (notesToStore body) in
            let db1 := updateDuplicate db id data in
            let updated := data duplicate in
            if deleteRequested body then
              match deleteMissingPerson db1 (duplicateCaseId duplicate) with
              | None => (db1, Resolve500)
              | Some db2 =>
                  match secondCase with
                  | None => (db2, Resolve500)
                  | Some c =>
                      (createAuditLog db2 (deleteEntry user duplicate c),
                       Resolve200 updated
                         (js "Caso duplicado confirmado e removido"))
                  end
              end
            else (db1, Resolve200 updated (js "Status atualizado"))
        end
    end.

(** The entry of the middleware: [entityId] is [req.params.id], the
    decoded segment, while [details] ends in [req.path], the path as it
    was sent. *)
Definition resolveEntry (user path id : jsstring) : AuditLog :=
  middlewareEntry user (js "RESOLVE_DUPLICATE") (js "CASE") (Some id)
    (js "PATCH") path.

(** The route: [auditLog('RESOLVE_DUPLICATE', 'CASE')] around the handler.
    [path] is [req.path] and [id] is [req.params.id]. *)
Definition resolveRoute (env : Env) (db : Db) (user : jsstring) (now : Z)
    (path id : jsstring) (body : ResolveBody) : Db * ResolveResponse :=
  let '(db', response) := resolveHandler env db user now id body in
  (createAuditLog db' (resolveEntry user path id), response).

(** ** The scoring formula in the words of the specification *)

(** Text similarity: [(maxLen - distance) / maxLen], 1 for two empty
    strings. *)
Definition textSimilarity (s1 s2 : jsstring) : Q :=
  let maxLen := Nat.max (length s1) (length s2) in
  if decide (maxLen = 0%nat) then 1
  else (num maxLen - num (edit_distance s1 s2)) / num maxLen.

(** Temporal proximity: [max(0, 1 - diffDays / 30)]. *)
Definition dateProximity (t1 t2 : Z) : Q :=
  Qmax 0 (1 - (inject_Z (Z.abs (t1 - t2)) / inject_Z 86400000) / 30).

(** Categorical equality. *)
Definition provinceEquality (p1 p2 : jsstring) : Q :=
  if decide (p1 = p2) then 1 else 0.

(** Numeric proximity: [max(0, 1 - |a - b| / 5)]. *)
Definition ageProximity (a1 a2 : Z) : Q :=
  Qmax 0 (1 - inject_Z (Z.abs (a1 - a2)) / 5).

(** One factor: its weight and its similarity when both inputs pass the
    test [ok], nothing otherwise. *)
Definition factor {A} (ok : option A → bool) (weight : Q)
    (similarity : A → A → Q) (x y : option A) : list (Q * Q) :=
  match x, y with
  | Some a, Some b =>
      if ok x && ok y then [(weight, similarity a b)] else []
  | _, _ => []
  end.

(** The applicable factors of a pair, for given applicability tests on
    strings, dates and numbers. *)
Definition factorsBy (okString : option jsstring → bool)
    (okDate okNumber : option Z → bool) (env : Env)
    (c1 c2 : MissingPerson) : list (Q * Q) :=
  factor okString 0.4
    (λ a b, textSimilarity (toLowerCase env a) (toLowerCase env b))
    (fullName c1) (fullName c2)
  ++ factor okDate 0.2 dateProximity (missingDate c1) (missingDate c2)
  ++ factor okString 0.2 provinceEquality (province c1) (province c2)
  ++ factor okNumber 0.2 ageProximity (age c1) (age c2).

Definition isPresent {A} (x : option A) : bool :=
  match x with
  | Some _ => true
  | None => false
  end.


(** Applicable means truthy: the factors the guards of the scorer admit. *)
Definition truthyFactors : Env → MissingPerson → MissingPerson → list (Q * Q)
  := factorsBy truthy_string truthy_date truthy_number.

Definition sumQ (l : list Q) : Q := foldr Qplus 0 l.

(** [numerator / denominator] if the applicable weight is positive, else 0. *)
Definition weightedMean (fs : list (Q * Q)) : Q :=
  let numerator := sumQ (map (λ f, f.1 * f.2) fs) in
  let denominator := sumQ (map fst fs) in
  if Qlt_le_dec 0 denominator then numerator / denominator else 0.

(** ** Helpers for the statements *)

(** [acc'] is [acc] with the factors [fs] added to [score] and [factors]. *)
Definition extends (acc : Acc) (fs : list (Q * Q)) (acc' : Acc) : Prop :=
  acc'.1 == acc.1 + sumQ (map (λ f, f.1 * f.2) fs)
  ∧ acc'.2 == acc.2 + sumQ (map fst fs).


(** A weight is positive and a similarity lies in [0, 1]. *)
Definition factor_ok (f : Q * Q) : Prop := 0 < f.1 ∧ 0 <= f.2 <= 1.

Definition setAge (a : option Z) (c : MissingPerson) : MissingPerson :=
  {| mp_id := mp_id c; fullName := fullName c; age := a;
     missingDate := missingDate c; province := province c;
     approved := approved c; createdAt := createdAt c |}.

Definition setFullName (n : option jsstring) (c : MissingPerson)
  : MissingPerson :=
  {| mp_id := mp_id c; fullName := n; age := age c;
     missingDate := missingDate c; province := province c;
     approved := approved c; createdAt := createdAt c |}.

(** The ordered pair of a row. *)
Definition pairKey (d : DuplicateCase) : jsstring * jsstring :=
  (originalCaseId d, duplicateCaseId d).

Local Close Scope Q_scope.

(** ** Sample data for the examples *)

(** Lower-casing of the ASCII letters. *)
Definition asciiLower (s : jsstring) : jsstring :=
  map (λ c, if (65 <=? c)%N && (c <=? 90)%N then (c + 32)%N else c) s.

Definition decimalId (n : nat) : jsstring :=
  js "dup" ++ js (NilEmpty.string_of_uint (Nat.to_uint n)).

(** An environment whose store never fails. *)
Definition testEnv : Env :=
  {| toLowerCase := asciiLower;
     newId := decimalId;
     createFails := λ _ _, false |}.

(** An environment whose store refuses the pair (a, b). *)
Definition faultyEnv : Env :=
  {| toLowerCase := asciiLower;
     newId := decimalId;
     createFails := λ o d, bool_decide (o = js "a" ∧ d = js "b") |}.

Definition day : Z := 86400000.

Definition moderator : jsstring := js "mod".

Definition person (id name : string) (a : option Z) (date : Z)
    (prov : string) (created : Z) : MissingPerson :=
  {| mp_id := js id; fullName := Some (js name); age := a;
     missingDate := Some (date * day)%Z; province := Some (js prov);
     approved := true; createdAt := created |}.

(** The two records of the specification's scenarios. *)
Definition maria1 : MissingPerson :=
  person "a" "Maria Silva" (Some 30%Z) 0 "Luanda" 3.
Definition maria2 : MissingPerson :=
  person "b" "Maria Silva" (Some 31%Z) 9 "Luanda" 2.
Definition maria3 : MissingPerson :=
  person "c" "Maria Silva" (Some 30%Z) 1 "Luanda" 1.

Definition mariaDb : Db :=
  {| missingPerson := [maria1; maria2; maria3]; duplicateCase := [];
     auditLog := []; idCounter := 0 |}.


(** The ordered pair (a, b) as a candidate, and the registry after a first
    detection pass over [mariaDb]. *)
Definition candidateAB : Candidate :=
  {| candOriginalCaseId := js "a"; candDuplicateCaseId := js "b";
     candSimilarityScore := 0.9%Q |}.

Definition detectedDb : Db :=
  fst (detectRoute testEnv mariaDb moderator 100 None).

(** A registry whose only pair was confirmed earlier, and two requests. *)
Definition confirmedPair : DuplicateCase :=
  {| dc_id := js "dup0"; originalCaseId := js "a"; duplicateCaseId := js "b";
     similarityScore := 0.9%Q; detectedBy := Some moderator;
     detectedAt := 100; status := CONFIRMADO;
     resolvedBy := Some moderator; resolvedAt := Some 150%Z;
     resolutionNotes := None |}.

Definition confirmedDb : Db :=
  {| missingPerson := [maria1; maria2; maria3];
     duplicateCase := [confirmedPair]; auditLog := []; idCounter := 1 |}.

Definition rejectBody : ResolveBody :=
  {| bodyStatus := Some (JsString (js "REJEITADO"));
     bodyResolutionNotes := Some (JsString (js "engano"));
     bodyDeleteDuplicate := None |}.

Definition confirmAndDeleteBody : ResolveBody :=
  {| bodyStatus := Some (JsString (js "CONFIRMADO"));
     bodyResolutionNotes := None;
     bodyDeleteDuplicate := Some (JsBool true) |}.


(** Two records that have an age and nothing else. *)
Definition ageOnly (id : string) (a : Z) : MissingPerson :=
  {| mp_id := js id; fullName := None; age := Some a; missingDate := None;
     province := None; approved := true; createdAt := 0 |}.

(** The candidates of a detection pass over [mariaDb]. *)
Definition mariaCandidates : list Candidate :=
  default [] (scoreAll faultyEnv 0.7%Q (findApprovedCases mariaDb)).

(** A second report of the case of [maria1], filed later under another id. *)
Definition maria1Again : MissingPerson :=
  person "z" "Maria Silva" (Some 30%Z) 0 "Luanda" 9.

(** ** Invariants of the tables *)

(** A row as [prisma.duplicateCase.create] leaves it. *)
Definition freshRow (user : jsstring) (now : Z) (row : DuplicateCase) : Prop :=
  status row = PENDENTE ∧ detectedBy row = Some user ∧ detectedAt row = now
  ∧ resolvedBy row = None ∧ resolvedAt row = None
  ∧ resolutionNotes row = None.

(** The unique index on [(originalCaseId, duplicateCaseId)]. *)
Definition uniquePairs (db : Db) : Prop :=
  NoDup (map pairKey (duplicateCase db)).

(** The two foreign keys of [DuplicateCase]. *)
Definition foreignKeys (db : Db) : Prop :=
  ∀ row, row ∈ duplicateCase db →
    is_Some (findCase db (originalCaseId row))
    ∧ is_Some (findCase db (duplicateCaseId row)).

(** Newest first. *)
Definition newerFirst (c1 c2 : MissingPerson) : Prop :=
  (createdAt c2 <= createdAt c1)%Z.



(** ** [requireAuth] (middleware/auth) *)

(** The payload [jwt.verify] returns. *)
Record TokenPayload := {
  sub : jsstring;
  role : jsstring
}.

(** What [requireAuth] takes from outside: [process.env.JWT_SECRET] and
    [jwt.verify(token, secret)], [None] when it throws. *)
Record AuthEnv := {
  jwtSecret : option jsstring;
  jwtVerify : jsstring → jsstring → option TokenPayload
}.

(** [req.headers.authorization] and [req.cookies?.token]. *)
Record Credentials := {
  authorization : option jsstring;
  cookieToken : option jsstring
}.

(** The three answers of the middleware, and the call of [next()]. *)
Inductive AuthOutcome :=
  | NotAuthenticated          (* 401 *)
  | InvalidSession            (* 401, from the catch *)
  | Forbidden                 (* 403 *)
  | Authorized (payload : TokenPayload).

(** [s.startsWith(prefix)] and [s.substring(start)]. *)
Definition startsWith (s prefix : jsstring) : bool :=
  bool_decide (take (length prefix) s = prefix).

Definition substring (s : jsstring) (start : nat) : jsstring := drop start s.

(** [authHeader?.startsWith('Bearer ') ? authHeader.substring(7)
    : req.cookies?.token] *)
Definition requestToken (req : Credentials) : option jsstring :=
  match authorization req with
  | Some authHeader =>
      if startsWith authHeader (js "Bearer ")
      then Some (substring authHeader 7)
      else cookieToken req
  | None => cookieToken req
  end.

Definition requireAuth (aenv : AuthEnv) (roles : list jsstring)
    (req : Credentials) : AuthOutcome :=
  match requestToken req with
  | None | Some [] => NotAuthenticated
  | Some token =>
      match jwtSecret aenv with
      | None | Some [] => InvalidSession
      | Some secret =>
          match jwtVerify aenv token secret with
          | None => InvalidSession
          | Some payload =>
              if negb (length roles =? 0)
                 && negb (bool_decide (role payload ∈ roles))
              then Forbidden
              else Authorized payload
          end
      end
  end.

(** A response of a route behind [requireAuth]. *)
Inductive Guarded (R : Type) :=
  | Denied (why : AuthOutcome)
  | Served (response : R).
Arguments Denied {R} why.
Arguments Served {R} response.

(** [requireAuth(roles)] in front of a route that is given [req.userId]. *)
Definition behindAuth {R} (aenv : AuthEnv) (roles : list jsstring)
    (req : Credentials) (db : Db) (route : jsstring → Db * R)
  : Db * Guarded R :=
  match requireAuth aenv roles req with
  | Authorized payload =>
      let '(db', response) := route (sub payload) in (db', Served response)
  | why => (db, Denied why)
  end.

(** The roles of the three routes of the duplicates router. *)
Definition moderatorRoles : list jsstring := [js "MODERADOR"; js "ADMIN"].

(** The routes as mounted.  The audit middleware writes its entry only
    [if (req.userId)], that is for a non-empty [sub]. *)
Definition detectEndpoint (aenv : AuthEnv) (env : Env) (db : Db)
    (req : Credentials) (now : Z) (threshold : option Q)
  : Db * Guarded DetectResponse :=
  behindAuth aenv moderatorRoles req db
    (λ user, match user with
             | [] => detectHandler env db user now threshold
             | _ => detectRoute env db user now threshold
             end).

Definition resolveEndpoint (aenv : AuthEnv) (env : Env) (db : Db)
    (req : Credentials) (now : Z) (path id : jsstring) (body : ResolveBody)
  : Db * Guarded ResolveResponse :=
  behindAuth aenv moderatorRoles req db
    (λ user, match user with
             | [] => resolveHandler env db user now id body
             | _ => resolveRoute env db user now path id body
             end).

Definition listEndpoint (aenv : AuthEnv) (db : Db) (req : Credentials)
    (queryStatus : option jsstring) : Db * Guarded ListResponse :=
  behindAuth aenv moderatorRoles req db (λ _, listRoute db queryStatus).

(** ** [pushAlert] (services/notification-service) *)






(** ** POST /broadcast (routes/alerts) *)








(** ** Helpers for the statements about these routes *)

(** The request carries a non-empty token that [jwt.verify] accepts under
    the configured secret, for one of the given roles. *)
Definition holdsToken (aenv : AuthEnv) (roles : list jsstring)
    (req : Credentials) (payload : TokenPayload) : Prop :=
  ∃ token secret,
    requestToken req = Some token ∧ token ≠ []
    ∧ jwtSecret aenv = Some secret ∧ secret ≠ []
    ∧ jwtVerify aenv token secret = Some payload
    ∧ role payload ∈ roles.





(** Sample data: a verifier that accepts one token, and a store with two
    subscriptions in Luanda, one of them without a device. *)
Definition sampleAuth : AuthEnv :=
  {| jwtSecret := Some (js "s3cret");
     jwtVerify := λ token secret,
       if bool_decide (token = js "tok-mod" ∧ secret = js "s3cret")
       then Some {| sub := js "mod"; role := js "MODERADOR" |}
       else if bool_decide (token = js "tok-fam" ∧ secret = js "s3cret")
       then Some {| sub := js "fam"; role := js "FAMILIAR" |}
       else None |}.

Definition bearer (token : string) : Credentials :=
  {| authorization := Some (js "Bearer " ++ js token); cookieToken := None |}.







(** ** Double precision

    A JavaScript number is an IEEE 754 binary64 value.  The scorer is
    given a second time below with every operation rounded as the
    processor rounds it: to the nearest double, ties to the even
    significand.  A double is kept as the rational it stands for.  Neither
    an infinity nor a NaN can arise from the integers and the constants of
    the scorer, and none is represented. *)

Local Open Scope Q_scope.

(** The integer part of the base-2 logarithm of a positive rational. *)
Definition ilog2 (x : Q) : Z :=
  let k := (Z.log2 (Qnum x) - Z.log2 (Z.pos (Qden x)))%Z in
  if Qle_bool (2 ^ k) x then k else (k - 1)%Z.

(** The nearest integer, the even one of two that are equally near. *)
Definition roundHalfEven (x : Q) : Z :=
  let f := Qfloor x in
  match Qcompare (x - inject_Z f) (1 # 2) with
  | Lt => f
  | Gt => (f + 1)%Z
  | Eq => if Z.even f then f else (f + 1)%Z
  end.

(** The exponent of the last bit of the significand: 53 bits, and no
    exponent below that of the subnormal numbers. *)
Definition binade (x : Q) : Z := Z.max (ilog2 x - 52) (-1074).

Definition roundPositive (x : Q) : Q :=
  inject_Z (roundHalfEven (x / 2 ^ binade x)) * 2 ^ binade x.

(** The double nearest to [x]. *)
Definition round64 (x : Q) : Q :=
  match Qcompare x 0 with
  | Eq => 0
  | Gt => roundPositive x
  | Lt => - roundPositive (- x)
  end.

(** [x + y], [x - y], [x * y] and [x / y] on doubles. *)
Definition fadd (x y : Q) : Q := round64 (x + y).
Definition fsub (x y : Q) : Q := round64 (x - y).
Definition fmul (x y : Q) : Q := round64 (x * y).
Definition fdiv (x y : Q) : Q := round64 (x / y).

(** The literals [0.4] and [0.2] of the source. *)
Definition weight04 : Q := round64 0.4.
Definition weight02 : Q := round64 0.2.

(** [calculateSimilarity]: the two lengths and their difference are
    integers that a double holds exactly, the quotient is rounded. *)
Definition calculateSimilarity64 (str1 str2 : jsstring) : option Q :=
  let longer := if decide (length str2 < length str1)%nat then str1 else str2 in
  let shorter := if decide (length str2 < length str1)%nat then str2 else str1 in
  if decide (length longer = 0%nat) then Some 1
  else
    distance ← levenshteinDistance longer shorter;
    Some (fdiv (num (length longer) - num distance) (num (length longer))).

(** The four guarded blocks and [finalScore], as in [pairScore]. *)
Definition nameBlock64 (env : Env) (case1 case2 : MissingPerson) (acc : Acc)
  : option Acc :=
  if truthy_string (fullName case1) && truthy_string (fullName case2) then
    n1 ← fullName case1; n2 ← fullName case2;
    nameSimilarity ←
      calculateSimilarity64 (toLowerCase env n1) (toLowerCase env n2);
    Some (fadd acc.1 (fmul nameSimilarity weight04), fadd acc.2 weight04)
  else Some acc.

Definition dateBlock64 (case1 case2 : MissingPerson) (acc : Acc)
  : option Acc :=
  if truthy_date (missingDate case1) && truthy_date (missingDate case2) then
    t1 ← missingDate case1; t2 ← missingDate case2;
    let dateDiff := Qabs (fsub (inject_Z t1) (inject_Z t2)) in
    let daysDiff := fdiv dateDiff (inject_Z (1000 * 60 * 60 * 24)) in
    let dateSimilarity :=
      if Qle_bool daysDiff 30 then fsub 1 (fdiv daysDiff 30) else 0 in
    Some (fadd acc.1 (fmul dateSimilarity weight02), fadd acc.2 weight02)
  else Some acc.

Definition provinceBlock64 (case1 case2 : MissingPerson) (acc : Acc)
  : option Acc :=
  if truthy_string (province case1) && truthy_string (province case2) then
    let locationSimilarity :=
      if decide (province case1 = province case2) then 1 else 0 in
    Some (fadd acc.1 (fmul locationSimilarity weight02), fadd acc.2 weight02)
  else Some acc.

Definition ageBlock64 (case1 case2 : MissingPerson) (acc : Acc)
  : option Acc :=
  if truthy_number (age case1) && truthy_number (age case2) then
    a1 ← age case1; a2 ← age case2;
    let ageDiff := Qabs (fsub (inject_Z a1) (inject_Z a2)) in
    let ageSimilarity :=
      if Qle_bool ageDiff 5 then fsub 1 (fdiv ageDiff 5) else 0 in
    Some (fadd acc.1 (fmul ageSimilarity weight02), fadd acc.2 weight02)
  else Some acc.

Definition pairScore64 (env : Env) (case1 case2 : MissingPerson)
  : option Q :=
  acc ← nameBlock64 env case1 case2 (0, 0);
  acc ← dateBlock64 case1 case2 acc;
  acc ← provinceBlock64 case1 case2 acc;
  acc ← ageBlock64 case1 case2 acc;
  let '(score, factors) := acc in
  Some (if Qlt_le_dec 0 factors then fdiv score factors else 0).

(** *** The formula of the specification, on doubles *)

Definition textSimilarity64 (s1 s2 : jsstring) : Q :=
  let maxLen := Nat.max (length s1) (length s2) in
  if decide (maxLen = 0%nat) then 1
  else fdiv (num maxLen - num (edit_distance s1 s2)) (num maxLen).

(** The two proximities, as the source writes them:
    [diff <= window ? 1 - diff / window : 0]. *)
Definition dateProximity64 (t1 t2 : Z) : Q :=
  let dateDiff := Qabs (fsub (inject_Z t1) (inject_Z t2)) in
  let daysDiff := fdiv dateDiff (inject_Z (1000 * 60 * 60 * 24)) in
  if Qle_bool daysDiff 30 then fsub 1 (fdiv daysDiff 30) else 0.

Definition ageProximity64 (a1 a2 : Z) : Q :=
  let ageDiff := Qabs (fsub (inject_Z a1) (inject_Z a2)) in
  if Qle_bool ageDiff 5 then fsub 1 (fdiv ageDiff 5) else 0.

(** The factors whose two inputs are truthy, each with its weight and its
    similarity, in the order of the source. *)
Definition truthyFactors64 (env : Env) (c1 c2 : MissingPerson)
  : list (Q * Q) :=
  factor truthy_string weight04
    (λ a b, textSimilarity64 (toLowerCase env a) (toLowerCase env b))
    (fullName c1) (fullName c2)
  ++ factor truthy_date weight02 dateProximity64
       (missingDate c1) (missingDate c2)
  ++ factor truthy_string weight02 provinceEquality
       (province c1) (province c2)
  ++ factor truthy_number weight02 ageProximity64 (age c1) (age c2).

(** The running numerator and denominator after the factors [fs]. *)
Definition accumulate64 (acc : Acc) (fs : list (Q * Q)) : Acc :=
  foldl (λ acc f, (fadd acc.1 (fmul f.2 f.1), fadd acc.2 f.1)) acc fs.

(** [numerator / denominator] if the applicable weight is positive, else
    0. *)
Definition weightedMean64 (fs : list (Q * Q)) : Q :=
  let '(numerator, denominator) := accumulate64 (0, 0) fs in
  if Qlt_le_dec 0 denominator then fdiv numerator denominator else 0.

Local Close Scope Q_scope.

(** * Proofs *)

(** ** The loops of [levenshteinDistance] *)

(** Invariant rule for [for_loop]. *)
Lemma for_loop_inv {St} (P : nat → St → Prop) body n : ∀ lo (s : St),
  P lo s →
  (∀ i s, lo ≤ i < lo + n → P i s → ∃ s', body i s = Some s' ∧ P (S i) s') →
  ∃ s', for_loop n lo body s = Some s' ∧ P (lo + n) s'.
Proof.
  induction n as [|n IH]; intros lo s HP Hstep; simpl.
  - exists s. by rewrite Nat.add_0_r.
  - destruct (Hstep lo s) as (s1 & -> & HP1); [lia | done |]. simpl.
    replace (lo + S n) with (S lo + n) by lia.
    apply IH; [done |]. intros i s2 Hi. apply Hstep. lia.
Qed.

Lemma charAt_eq (a b : jsstring) i j :
  charAt a i = charAt b j ↔ a !! i = b !! j.
Proof.
  unfold charAt. destruct (a !! i), (b !! j); split; congruence.
Qed.

Lemma lev_rec_0_r a b i : lev_rec a b i 0 = i.
Proof. by destruct i. Qed.

Lemma lev_rec_SS a b i j :
  lev_rec a b (S i) (S j) =
    if decide (a !! i = b !! j) then lev_rec a b i j
    else 1 + Nat.min (lev_rec a b i (S j))
               (Nat.min (lev_rec a b (S i) j) (lev_rec a b i j)).
Proof. reflexivity. Qed.

Lemma lev_rec_sym a b : ∀ i j, lev_rec a b i j = lev_rec b a j i.
Proof.
  induction i as [|i IHi]; intros j.
  - by rewrite lev_rec_0_r.
  - induction j as [|j IHj]; [done |].
    rewrite !lev_rec_SS, IHj, !IHi.
    destruct (decide (a !! i = b !! j)), (decide (b !! j = a !! i));
      try congruence; lia.
Qed.

Lemma edit_distance_sym a b : edit_distance a b = edit_distance b a.
Proof. apply lev_rec_sym. Qed.

Lemma lev_rec_bound a b : ∀ i j, lev_rec a b i j ≤ Nat.max i j.
Proof.
  induction i as [|i IHi]; intros j; [simpl; lia |].
  induction j as [|j IHj]; [simpl; lia |].
  rewrite lev_rec_SS. specialize (IHi j).
  destruct (decide _); lia.
Qed.

Lemma lev_rec_diag a : ∀ i, lev_rec a a i i = 0.
Proof.
  induction i as [|i IH]; [done |].
  rewrite lev_rec_SS. by destruct (decide _).
Qed.

Section LevenshteinCorrect.
Variables str1 str2 : jsstring.

Lemma table_row_length r j : length (table_row str2 str1 r j) = j.
Proof. unfold table_row. by rewrite length_map, length_seq. Qed.

Lemma table_row_lookup r j k :
  k < j → table_row str2 str1 r j !! k = Some (lev_rec str2 str1 r k).
Proof.
  intros Hk. unfold table_row.
  by rewrite list_lookup_fmap, lookup_seq_lt.
Qed.

Lemma table_row_S r j :
  table_row str2 str1 r (S j)
  = table_row str2 str1 r j ++ [lev_rec str2 str1 r j].
Proof. unfold table_row. by rewrite seq_S, map_app. Qed.

(** First loop: one row [[i]] per index. *)
Lemma first_loop :
  for_loop (S (length str2)) 0 (λ i m, array_set m i [i]) []
  = Some (map (λ r, [r]) (seq 0 (S (length str2)))).
Proof.
  destruct (for_loop_inv
    (λ i (m : list (list nat)), m = map (λ r, [r]) (seq 0 i))
    (λ i m, array_set m i [i]) (S (length str2)) 0 [])
    as (m & Hm & ->); [done | | done].
  intros i m _ ->. eexists. split; [| by rewrite seq_S, map_app].
  unfold array_set. rewrite length_map, length_seq.
  destruct (decide (i < i)); [lia |]. by destruct (decide (i = i)).
Qed.

Lemma table_inv_init :
  table_inv str1 str2 0 1 (map (λ r, [r]) (seq 0 (S (length str2)))).
Proof.
  split; [by rewrite length_map, length_seq |].
  intros r Hr. rewrite list_lookup_fmap, lookup_seq_lt by lia. simpl.
  destruct (decide (r < 0)); [lia |]. by destruct (decide (r = 0)) as [->|].
Qed.

(** Writing the next cell of row [i]. *)
Lemma matrix_set_next i j v m :
  i ≤ length str2 →
  table_inv str1 str2 i j m →
  v = lev_rec str2 str1 i j →
  ∃ m', matrix_set m i j v = Some m' ∧ table_inv str1 str2 i (S j) m'.
Proof.
  intros Hi [Hlen Hrows] ->. unfold matrix_set.
  rewrite (Hrows i Hi). destruct (decide (i < i)); [lia |].
  destruct (decide (i = i)); [| done]. simpl.
  unfold array_set. rewrite table_row_length.
  destruct (decide (j < j)); [lia |]. destruct (decide (j = j)); [| done].
  simpl. eexists. split; [done |]. split; [by rewrite length_insert |].
  intros r Hr. destruct (Nat.eq_dec r i) as [->|Hne].
  - rewrite list_lookup_insert_eq by lia.
    destruct (decide (i < i)); [lia |].
    destruct (decide (i = i)); [| done]. by rewrite table_row_S.
  - rewrite list_lookup_insert_ne by done. rewrite (Hrows r Hr).
    destruct (decide (r < i)); [done |]. by destruct (decide (r = i)).
Qed.

(** Second loop: row 0 becomes [0, 1, ..., str1.length]. *)
Lemma second_loop :
  ∃ m1,
    for_loop (S (length str1)) 0 (λ j m, matrix_set m 0 j j)
      (map (λ r, [r]) (seq 0 (S (length str2)))) = Some m1
    ∧ table_inv str1 str2 0 (S (length str1)) m1.
Proof.
  destruct (for_loop_inv
    (λ j m, table_inv str1 str2 0 (Nat.max 1 j) m)
    (λ j m, matrix_set m 0 j j) (S (length str1)) 0
    (map (λ r, [r]) (seq 0 (S (length str2)))))
    as (m1 & Hm1 & Hinv); [apply table_inv_init | |].
  - intros j m _ Hinv. destruct j as [|j].
    + exists m. split; [| done]. destruct Hinv as [Hlen Hrows].
      unfold matrix_set. rewrite (Hrows 0) by lia. simpl.
      f_equal. apply list_insert_id. by rewrite (Hrows 0) by lia.
    + replace (Nat.max 1 (S j)) with (S j) in Hinv by lia.
      replace (Nat.max 1 (S (S j))) with (S (S j)) by lia.
      apply matrix_set_next; [lia | done | done].
  - exists m1. split; [done |].
    by replace (Nat.max 1 (0 + S (length str1))) with (S (length str1))
      in Hinv by lia.
Qed.

Lemma matrix_get_inv i j m r k :
  table_inv str1 str2 i j m →
  r ≤ length str2 →
  (r < i ∧ k ≤ length str1) ∨ (r = i ∧ k < j) →
  matrix_get m r k = Some (lev_rec str2 str1 r k).
Proof.
  intros [_ Hrows] Hr Hk. unfold matrix_get. rewrite (Hrows r Hr). simpl.
  destruct (decide (r < i)); [apply table_row_lookup; lia |].
  destruct (decide (r = i)); [apply table_row_lookup; lia | lia].
Qed.

(** One iteration of the innermost loop. *)
Lemma fill_cell_step i j m :
  1 ≤ i ≤ length str2 → 1 ≤ j ≤ length str1 →
  table_inv str1 str2 i j m →
  ∃ m', fill_cell str1 str2 i j m = Some m'
        ∧ table_inv str1 str2 i (S j) m'.
Proof.
  intros Hi Hj Hinv.
  destruct i as [|i]; [lia |]. destruct j as [|j]; [lia |].
  unfold fill_cell. simpl Nat.sub. rewrite !Nat.sub_0_r.
  rewrite (matrix_get_inv _ _ _ i j Hinv) by lia.
  rewrite (matrix_get_inv _ _ _ (S i) j Hinv) by lia.
  rewrite (matrix_get_inv _ _ _ i (S j) Hinv) by lia.
  cbn [mbind option_bind].
  destruct (decide (charAt str2 i = charAt str1 j)) as [He|He];
    rewrite charAt_eq in He;
    (apply matrix_set_next; [lia | done |]);
    rewrite lev_rec_SS; destruct (decide (str2 !! i = str1 !! j));
    try done; lia.
Qed.

(** Finishing row [i] is starting row [i + 1]. *)
Lemma table_inv_next_row i m :
  table_inv str1 str2 i (S (length str1)) m → table_inv str1 str2 (S i) 1 m.
Proof.
  intros [Hlen Hrows]. split; [done |]. intros r Hr.
  rewrite (Hrows r Hr).
  destruct (decide (r < i)), (decide (r < S i)), (decide (r = i)),
    (decide (r = S i)); try lia; try done.
  subst r. by rewrite <- (lev_rec_0_r str2 str1 (S i)).
Qed.

Lemma levenshteinMatrix_inv :
  ∃ m, levenshteinMatrix str1 str2 = Some m
       ∧ table_inv str1 str2 (length str2) (S (length str1)) m.
Proof.
  unfold levenshteinMatrix. rewrite first_loop. cbn [mbind option_bind].
  destruct second_loop as (m1 & -> & Hm1). cbn [mbind option_bind].
  destruct (for_loop_inv
    (λ i m, table_inv str1 str2 (i - 1) (S (length str1)) m)
    (λ i m, for_loop (length str1) 1 (λ j m', fill_cell str1 str2 i j m') m)
    (length str2) 1 m1) as (m2 & Hm2 & Hinv); [done | |].
  - intros i m Hi Hinv. apply table_inv_next_row in Hinv.
    replace (S (i - 1)) with i in Hinv by lia.
    replace (S i - 1) with i by lia.
    apply (for_loop_inv (λ j m, table_inv str1 str2 i j m)); [done |].
    intros j m' Hj. apply fill_cell_step; lia.
  - exists m2. split; [done |].
    by replace (1 + length str2 - 1) with (length str2) in Hinv by lia.
Qed.

(** The code computes cell [d[str2.length][str1.length]] of the table. *)
Lemma levenshteinDistance_table :
  levenshteinDistance str1 str2
  = Some (lev_rec str2 str1 (length str2) (length str1)).
Proof.
  unfold levenshteinDistance.
  destruct levenshteinMatrix_inv as (m & -> & Hinv). simpl.
  apply (matrix_get_inv _ _ _ _ _ Hinv); lia.
Qed.
End LevenshteinCorrect.

Lemma levenshteinDistance_edit s1 s2 :
  levenshteinDistance s1 s2 = Some (edit_distance s1 s2).
Proof. by rewrite levenshteinDistance_table, edit_distance_sym. Qed.

(** ** [calculateSimilarity] *)

Lemma textSimilarity_sym s1 s2 : textSimilarity s1 s2 = textSimilarity s2 s1.
Proof.
  unfold textSimilarity. by rewrite Nat.max_comm, edit_distance_sym.
Qed.

Lemma calculateSimilarity_text s1 s2 :
  calculateSimilarity s1 s2 = Some (textSimilarity s1 s2).
Proof.
  unfold calculateSimilarity, textSimilarity.
  destruct (decide (length s2 < length s1)).
  - rewrite levenshteinDistance_edit.
    replace (Nat.max (length s1) (length s2)) with (length s1) by lia.
    by destruct (decide (length s1 = 0)).
  - rewrite levenshteinDistance_edit, (edit_distance_sym s2 s1).
    replace (Nat.max (length s1) (length s2)) with (length s2) by lia.
    by destruct (decide (length s2 = 0)).
Qed.

Lemma edit_distance_refl s : edit_distance s s = 0.
Proof. apply lev_rec_diag. Qed.

Lemma edit_distance_bound a b :
  edit_distance a b ≤ Nat.max (length a) (length b).
Proof. apply lev_rec_bound. Qed.

Lemma num_le n m : n ≤ m → (num n <= num m)%Q.
Proof. intros H. unfold num. rewrite <- Zle_Qle. lia. Qed.

Lemma num_pos n : n ≠ 0 → (0 < num n)%Q.
Proof.
  intros H. unfold num. change 0%Q with (inject_Z 0). rewrite <- Zlt_Qlt. lia.
Qed.

Lemma textSimilarity_refl s : (textSimilarity s s == 1)%Q.
Proof.
  unfold textSimilarity. rewrite edit_distance_refl.
  destruct (decide _) as [|Hne]; [reflexivity |].
  apply num_pos in Hne. change (num 0) with 0%Q. field. lra.
Qed.

Lemma textSimilarity_range a b : (0 <= textSimilarity a b <= 1)%Q.
Proof.
  unfold textSimilarity. destruct (decide _) as [|Hne]; [lra |].
  pose proof (num_pos _ Hne) as Hpos.
  pose proof (num_le _ _ (edit_distance_bound a b)) as Hd.
  pose proof (num_le 0 (edit_distance a b) ltac:(lia)) as H0.
  change (num 0) with 0%Q in H0.
  split.
  - apply Qle_shift_div_l; [done | lra].
  - apply Qle_shift_div_r; [done | lra].
Qed.

(** C5.  [levenshteinDistance] returns the entry [d[len1][len2]] of the
    table defined by the recurrence of the specification ([lev_rec], with
    [d[i][0] = i] and [d[0][j] = j]); [calculateSimilarity] returns
    [(maxLen - distance) / maxLen] for [maxLen = max(len1, len2)] and 1.0
    for two empty strings; the distance of a string to itself is 0 and its
    similarity to itself is 1.0. *)
Theorem levenshtein_and_similarity_spec (s1 s2 : jsstring) :
  levenshteinDistance s1 s2
    = Some (lev_rec s1 s2 (length s1) (length s2))
  ∧ calculateSimilarity s1 s2 = Some (textSimilarity s1 s2)
  ∧ (∀ i j,
       lev_rec s1 s2 i 0 = i
       ∧ lev_rec s1 s2 0 j = j
       ∧ lev_rec s1 s2 (S i) (S j)
         = if decide (s1 !! i = s2 !! j) then lev_rec s1 s2 i j
           else 1 + Nat.min (lev_rec s1 s2 i (S j))
                      (Nat.min (lev_rec s1 s2 (S i) j) (lev_rec s1 s2 i j)))
  ∧ calculateSimilarity [] [] = Some 1%Q
  ∧ levenshteinDistance s1 s1 = Some 0
  ∧ ∃ q, calculateSimilarity s1 s1 = Some q ∧ (q == 1)%Q.
Proof.
  split; [apply levenshteinDistance_edit |].
  split; [apply calculateSimilarity_text |].
  split; [intros i j; split; [apply lev_rec_0_r | split; [done | apply lev_rec_SS]] |].
  split; [done |].
  split; [by rewrite levenshteinDistance_edit, edit_distance_refl |].
  exists (textSimilarity s1 s1).
  split; [apply calculateSimilarity_text | apply textSimilarity_refl].
Qed.

(** C9.  [calculateSimilarity] is symmetric in its two arguments. *)
Theorem calculateSimilarity_symmetric (s1 s2 : jsstring) :
  calculateSimilarity s1 s2 = calculateSimilarity s2 s1.
Proof. by rewrite !calculateSimilarity_text, textSimilarity_sym. Qed.

(** ** The pairwise scorer *)

Local Open Scope Q_scope.

Lemma sumQ_app l1 l2 : sumQ (l1 ++ l2) == sumQ l1 + sumQ l2.
Proof.
  induction l1 as [|x l1 IH]; simpl; [ring |]. rewrite IH. ring.
Qed.

Lemma extends_nil acc : extends acc [] acc.
Proof. unfold extends. simpl. split; ring. Qed.

Lemma extends_app acc fs acc' gs acc'' :
  extends acc fs acc' → extends acc' gs acc'' → extends acc (fs ++ gs) acc''.
Proof.
  unfold extends. intros [H1 H2] [H3 H4].
  rewrite !map_app, !sumQ_app, H3, H4, H1, H2. split; ring.
Qed.

(** The guarded linear decay of the code is the [max] of the specification. *)
Lemma decay_max x k :
  0 < k → (if Qle_bool x k then 1 - x / k else 0) == Qmax 0 (1 - x / k).
Proof.
  intros Hk. destruct (Qle_bool x k) eqn:E.
  - apply Qle_bool_iff in E. symmetry. apply Q.max_r.
    assert (x / k <= 1) by (apply Qle_shift_div_r; lra). lra.
  - symmetry. apply Q.max_l.
    assert (¬ x <= k) as Hn by (rewrite <- Qle_bool_iff; congruence).
    apply Qnot_le_lt in Hn.
    assert (1 <= x / k) by (apply Qle_shift_div_l; lra). lra.
Qed.

Lemma decay_range x k : 0 < k → 0 <= x → 0 <= Qmax 0 (1 - x / k) <= 1.
Proof.
  intros Hk Hx. split; [apply Q.le_max_l |].
  assert (0 <= x / k) by (apply Qle_shift_div_l; lra).
  apply Q.max_lub; lra.
Qed.

Lemma abs_nonneg z : 0 <= inject_Z (Z.abs z).
Proof. change 0 with (inject_Z 0). rewrite <- Zle_Qle. lia. Qed.

Lemma nameBlock_spec env c1 c2 acc :
  ∃ acc', nameBlock env c1 c2 acc = Some acc'
    ∧ extends acc
        (factor truthy_string 0.4
           (λ a b, textSimilarity (toLowerCase env a) (toLowerCase env b))
           (fullName c1) (fullName c2)) acc'.
Proof.
  unfold nameBlock, factor.
  destruct (fullName c1) as [n1|], (fullName c2) as [n2|];
    try (exists acc; split; [by rewrite ?andb_false_r | apply extends_nil]).
  destruct (truthy_string (Some n1) && truthy_string (Some n2));
    [| exists acc; split; [done | apply extends_nil]].
  cbn [mbind option_bind]. rewrite calculateSimilarity_text.
  eexists. split; [reflexivity |]. unfold extends. simpl. split; ring.
Qed.

Lemma dateBlock_spec c1 c2 acc :
  ∃ acc', dateBlock c1 c2 acc = Some acc'
    ∧ extends acc
        (factor truthy_date 0.2 dateProximity (missingDate c1)
           (missingDate c2)) acc'.
Proof.
  unfold dateBlock, factor.
  destruct (missingDate c1) as [t1|], (missingDate c2) as [t2|];
    try (exists acc; split; [done | apply extends_nil]).
  simpl. eexists. split; [reflexivity |]. unfold extends, dateProximity.
  cbn [fst snd map sumQ foldr].
  change (inject_Z (1000 * 60 * 60 * 24)) with (inject_Z 86400000).
  rewrite decay_max by reflexivity. split; ring.
Qed.

Lemma provinceBlock_spec c1 c2 acc :
  ∃ acc', provinceBlock c1 c2 acc = Some acc'
    ∧ extends acc
        (factor truthy_string 0.2 provinceEquality (province c1)
           (province c2)) acc'.
Proof.
  unfold provinceBlock, factor.
  destruct (province c1) as [p1|], (province c2) as [p2|];
    try (exists acc; split; [by rewrite ?andb_false_r | apply extends_nil]).
  destruct (truthy_string (Some p1) && truthy_string (Some p2));
    [| exists acc; split; [done | apply extends_nil]].
  eexists. split; [reflexivity |]. unfold extends, provinceEquality.
  cbn [fst snd map sumQ foldr].
  destruct (decide (Some p1 = Some p2)), (decide (p1 = p2));
    try congruence; split; ring.
Qed.

Lemma ageBlock_spec c1 c2 acc :
  ∃ acc', ageBlock c1 c2 acc = Some acc'
    ∧ extends acc
        (factor truthy_number 0.2 ageProximity (age c1) (age c2)) acc'.
Proof.
  unfold ageBlock, factor.
  destruct (age c1) as [a1|], (age c2) as [a2|];
    try (exists acc; split; [by rewrite ?andb_false_r | apply extends_nil]).
  destruct (truthy_number (Some a1) && truthy_number (Some a2));
    [| exists acc; split; [done | apply extends_nil]].
  cbn [mbind option_bind]. eexists. split; [reflexivity |].
  unfold extends, ageProximity. cbn [fst snd map sumQ foldr].
  rewrite decay_max by reflexivity. split; ring.
Qed.

Lemma finalScore_eq s f n d :
  s == n → f == d →
  (if Qlt_le_dec 0 f then s / f else 0)
  == (if Qlt_le_dec 0 d then n / d else 0).
Proof.
  intros Hs Hf. destruct (Qlt_le_dec 0 f), (Qlt_le_dec 0 d); try lra.
  by rewrite Hs, Hf.
Qed.

(** The code computes the weighted mean of the factors its guards admit. *)
Lemma pairScore_mean env c1 c2 :
  ∃ q, pairScore env c1 c2 = Some q
       ∧ q == weightedMean (truthyFactors env c1 c2).
Proof.
  unfold pairScore.
  destruct (nameBlock_spec env c1 c2 (0, 0)) as (a1 & -> & H1).
  cbn [mbind option_bind].
  destruct (dateBlock_spec c1 c2 a1) as (a2 & -> & H2).
  cbn [mbind option_bind].
  destruct (provinceBlock_spec c1 c2 a2) as (a3 & -> & H3).
  cbn [mbind option_bind].
  destruct (ageBlock_spec c1 c2 a3) as (a4 & -> & H4).
  cbn [mbind option_bind].
  pose proof (extends_app _ _ _ _ _ H1
    (extends_app _ _ _ _ _ H2 (extends_app _ _ _ _ _ H3 H4))) as [Hs Hf].
  destruct a4 as [score factors]. eexists. split; [reflexivity |].
  unfold weightedMean. apply finalScore_eq.
  - simpl in Hs. rewrite Hs. unfold truthyFactors, factorsBy. ring.
  - simpl in Hf. rewrite Hf. unfold truthyFactors, factorsBy. ring.
Qed.

Lemma factor_Forall {A} (ok : option A → bool) w sim (x y : option A) :
  0 < w → (∀ a b, 0 <= sim a b <= 1) → Forall factor_ok (factor ok w sim x y).
Proof.
  intros Hw Hsim. unfold factor.
  destruct x, y; try constructor. destruct (_ && _); repeat constructor;
    simpl; try done; apply Hsim.
Qed.

Lemma factorsBy_ok okS okD okN env c1 c2 :
  Forall factor_ok (factorsBy okS okD okN env c1 c2).
Proof.
  unfold factorsBy. repeat apply Forall_app_2; apply factor_Forall;
    try reflexivity; intros a b.
  - apply textSimilarity_range.
  - unfold dateProximity. apply decay_range; [reflexivity |].
    apply Qle_shift_div_l; [reflexivity |]. pose proof (abs_nonneg (a - b)).
    lra.
  - unfold provinceEquality. destruct (decide _); lra.
  - unfold ageProximity. apply decay_range; [reflexivity | apply abs_nonneg].
Qed.

Lemma sums_bounds fs :
  Forall factor_ok fs →
  0 <= sumQ (map (λ f, f.1 * f.2) fs) <= sumQ (map fst fs).
Proof.
  induction 1 as [|[w s] fs [Hw [Hs0 Hs1]] _ IH]; simpl in *; [lra |].
  assert (0 <= w * s) by (apply Qmult_le_0_compat; lra).
  assert (w * s <= w * 1)
    by (apply Qmult_le_l; lra).
  lra.
Qed.

Lemma weightedMean_range fs :
  Forall factor_ok fs → 0 <= weightedMean fs <= 1.
Proof.
  intros H. apply sums_bounds in H. unfold weightedMean.
  destruct (Qlt_le_dec _ _); [| lra]. split.
  - apply Qle_shift_div_l; [done | lra].
  - apply Qle_shift_div_r; [done | lra].
Qed.


Lemma pairScore_range env c1 c2 :
  ∃ q, pairScore env c1 c2 = Some q ∧ 0 <= q <= 1.
Proof.
  destruct (pairScore_mean env c1 c2) as (q & Hq & Heq).
  exists q. split; [done |]. rewrite Heq.
  apply weightedMean_range, factorsBy_ok.
Qed.








(** C10.  An age of 0 and an empty full name are treated by the scorer as
    a missing field: the guarded block leaves the accumulator alone and the
    score is the score of the record without the field; two empty names
    give no name factor. *)
Theorem falsy_fields_are_skipped (env : Env) (c1 c2 : MissingPerson)
    (acc : Acc) :
  ageBlock (setAge (Some 0%Z) c1) c2 acc = Some acc
  ∧ ageBlock c1 (setAge (Some 0%Z) c2) acc = Some acc
  ∧ nameBlock env (setFullName (Some []) c1) c2 acc = Some acc
  ∧ nameBlock env c1 (setFullName (Some []) c2) acc = Some acc
  ∧ pairScore env (setAge (Some 0%Z) c1) c2
    = pairScore env (setAge None c1) c2
  ∧ pairScore env c1 (setAge (Some 0%Z) c2)
    = pairScore env c1 (setAge None c2)
  ∧ pairScore env (setFullName (Some []) c1) c2
    = pairScore env (setFullName None c1) c2
  ∧ pairScore env c1 (setFullName (Some []) c2)
    = pairScore env c1 (setFullName None c2)
  ∧ pairScore env (setFullName (Some []) c1) (setFullName (Some []) c2)
    = pairScore env (setFullName None c1) (setFullName None c2).
Proof.
  assert (∀ c, truthy_number (age c) && false = false) as Hf
    by (intros; apply andb_false_r).
  assert (∀ c, truthy_string (fullName c) && false = false) as Hg
    by (intros; apply andb_false_r).
  repeat split; unfold pairScore, ageBlock, nameBlock;
    cbn [age fullName setAge setFullName truthy_number truthy_string
         Z.eqb negb andb];
    rewrite ?Hf, ?Hg; reflexivity.
Qed.

(** ** The scoring loops *)

Lemma scoreAgainst_elem env t c1 rest :
  ∃ l, scoreAgainst env t c1 rest = Some l
    ∧ ∀ cand, cand ∈ l ↔
        ∃ c2 q, c2 ∈ rest ∧ pairScore env c1 c2 = Some q
          ∧ Qle_bool t q = true
          ∧ cand = {| candOriginalCaseId := mp_id c1;
                      candDuplicateCaseId := mp_id c2;
                      candSimilarityScore := q |}.
Proof.
  induction rest as [|c2 rest (l & Hl & IH)]; simpl.
  - exists []. split; [done |]. intros cand. split.
    + intros H. by apply elem_of_nil in H.
    + intros (? & ? & H & _). by apply elem_of_nil in H.
  - destruct (pairScore_range env c1 c2) as (q & Hq & _).
    rewrite Hq, Hl. cbn [mbind option_bind]. eexists. split; [done |].
    intros cand. destruct (Qle_bool t q) eqn:E.
    + rewrite elem_of_cons, IH. split.
      * intros [-> | (c & q' & Hc & H)].
        -- exists c2, q. by rewrite elem_of_cons; auto.
        -- exists c, q'. by rewrite elem_of_cons; auto.
      * intros (c & q' & Hc & Hs & Ht & ->).
        apply elem_of_cons in Hc as [-> | Hc].
        -- left. congruence.
        -- right. by exists c, q'.
    + rewrite IH. split.
      * intros (c & q' & Hc & H). exists c, q'.
        by rewrite elem_of_cons; auto.
      * intros (c & q' & Hc & Hs & Ht & ->).
        apply elem_of_cons in Hc as [-> | Hc]; [congruence |].
        by exists c, q'.
Qed.

Lemma scoreAll_elem env t cases :
  ∃ l, scoreAll env t cases = Some l
    ∧ ∀ cand, cand ∈ l ↔
        ∃ i j c1 c2 q, (i < j)%nat ∧ cases !! i = Some c1
          ∧ cases !! j = Some c2 ∧ pairScore env c1 c2 = Some q
          ∧ Qle_bool t q = true
          ∧ cand = {| candOriginalCaseId := mp_id c1;
                      candDuplicateCaseId := mp_id c2;
                      candSimilarityScore := q |}.
Proof.
  induction cases as [|c1 rest (l & Hl & IH)]; simpl.
  - exists []. split; [done |]. intros cand. split.
    + intros H. by apply elem_of_nil in H.
    + intros (i & j & ? & ? & ? & _ & H & _). done.
  - destruct (scoreAgainst_elem env t c1 rest) as (h & Hh & Hin).
    rewrite Hh, Hl. cbn [mbind option_bind]. eexists. split; [done |].
    intros cand. rewrite elem_of_app, Hin, IH. split.
    + intros [(c2 & q & Hc2 & H) | (i & j & a & b & q & Hij & Hi & Hj & H)].
      * apply list_elem_of_lookup in Hc2 as [j Hj].
        exists 0%nat, (S j), c1, c2, q. split; [lia | done].
      * exists (S i), (S j), a, b, q. split; [lia | done].
    + intros (i & j & a & b & q & Hij & Hi & Hj & H).
      destruct j as [|j]; [lia |]. destruct i as [|i].
      * left. simpl in Hi, Hj. injection Hi as <-. exists b, q.
        split; [| done]. apply list_elem_of_lookup. eauto.
      * right. exists i, j, a, b, q. split; [lia | done].
Qed.

Lemma scoreAll_total env t cases : ∃ l, scoreAll env t cases = Some l.
Proof. destruct (scoreAll_elem env t cases) as (l & H & _). eauto. Qed.

(** No score reaches a threshold above 1. *)
Lemma scoreAll_above_one env t cases :
  (1 < t)%Q → scoreAll env t cases = Some [].
Proof.
  intros Ht. destruct (scoreAll_elem env t cases) as ([|cand l] & H & Hin);
    [done |].
  destruct (proj1 (Hin cand)) as (i & j & c1 & c2 & q & _ & _ & _ & Hq & Hle & _);
    [left |].
  apply Qle_bool_iff in Hle.
  destruct (pairScore_range env c1 c2) as (q' & Hq' & Hr).
  assert (q' = q) as -> by congruence. lra.
Qed.

(** Every score reaches a threshold of 0 or less. *)
Lemma scoreAll_nonpositive env t cases i j c1 c2 :
  (t <= 0)%Q → (i < j)%nat →
  cases !! i = Some c1 → cases !! j = Some c2 →
  ∃ l q, scoreAll env t cases = Some l
    ∧ pairScore env c1 c2 = Some q
    ∧ {| candOriginalCaseId := mp_id c1;
         candDuplicateCaseId := mp_id c2;
         candSimilarityScore := q |} ∈ l.
Proof.
  intros Ht Hij Hi Hj.
  destruct (scoreAll_elem env t cases) as (l & H & Hin).
  destruct (pairScore_range env c1 c2) as (q & Hq & Hr).
  exists l, q. split; [done |]. split; [done |].
  apply Hin. exists i, j, c1, c2, q. repeat split; try done.
  apply Qle_bool_iff. lra.
Qed.

(** ** The persistence loop of POST /detect *)

Local Close Scope Q_scope.

Lemma findUniquePair_Some db o d row :
  findUniquePair db o d = Some row →
  row ∈ duplicateCase db ∧ pairKey row = (o, d).
Proof.
  unfold findUniquePair. intros H. apply find_some in H as [Hin Hp].
  apply bool_decide_eq_true in Hp as [<- <-].
  split; [by apply list_elem_of_In | done].
Qed.

Lemma findUniquePair_elem db o d row :
  row ∈ duplicateCase db → pairKey row = (o, d) →
  findUniquePair db o d ≠ None.
Proof.
  unfold findUniquePair, pairKey. intros Hin [= <- <-] Hnone.
  apply list_elem_of_In in Hin.
  pose proof (find_none _ _ Hnone _ Hin) as Hp. simpl in Hp.
  apply bool_decide_eq_false in Hp. by apply Hp.
Qed.

Lemma findUniquePair_ext db db' o d :
  duplicateCase db = duplicateCase db' →
  findUniquePair db o d = findUniquePair db' o d.
Proof. unfold findUniquePair. by intros ->. Qed.

Lemma findApprovedCases_ext db db' :
  missingPerson db = missingPerson db' →
  findApprovedCases db = findApprovedCases db'.
Proof. unfold findApprovedCases. by intros ->. Qed.

Lemma createDuplicate_Some env db dup user now db' row :
  createDuplicate env db dup user now = Some (db', row) →
  missingPerson db' = missingPerson db
  ∧ auditLog db' = auditLog db
  ∧ duplicateCase db' = duplicateCase db ++ [row]
  ∧ pairKey row = (candOriginalCaseId dup, candDuplicateCaseId dup)
  ∧ similarityScore row = candSimilarityScore dup
  ∧ status row = PENDENTE
  ∧ detectedBy row = Some user.
Proof.
  unfold createDuplicate. destruct (createFails _ _ _); [done |].
  destruct (findUniquePair _ _ _); [done |]. by intros [= <- <-].
Qed.

Lemma createDuplicate_ok env db dup user now :
  createFails env (candOriginalCaseId dup) (candDuplicateCaseId dup) = false →
  findUniquePair db (candOriginalCaseId dup) (candDuplicateCaseId dup) = None →
  ∃ db' row, createDuplicate env db dup user now = Some (db', row).
Proof. unfold createDuplicate. intros -> ->. eauto. Qed.

(** The loop only ever appends rows, and touches no other table. *)
Lemma persistDuplicates_frame env user now dups : ∀ db acc db' res,
  persistDuplicates env user now dups db acc = (db', res) →
  missingPerson db' = missingPerson db
  ∧ auditLog db' = auditLog db
  ∧ ∃ new, duplicateCase db' = duplicateCase db ++ new
      ∧ (∀ acc', res = Some acc' → acc' = acc ++ new)
      ∧ Forall (λ row, status row = PENDENTE ∧ detectedBy row = Some user
                  ∧ ∃ c, c ∈ dups
                      ∧ pairKey row
                        = (candOriginalCaseId c, candDuplicateCaseId c)
                      ∧ similarityScore row = candSimilarityScore c) new.
Proof.
  induction dups as [|dup rest IH]; intros db acc db' res; simpl.
  - intros [= <- <-]. repeat split. exists []. rewrite !app_nil_r.
    repeat split; [by intros ? [= <-] | constructor].
  - destruct (findUniquePair _ _ _) eqn:Hfind.
    + intros H. apply IH in H as (? & ? & new & ? & ? & Hall).
      repeat split; try done. exists new. repeat split; try done.
      eapply Forall_impl; [done |]. intros row (? & ? & c & ? & ?).
      repeat split; try done. exists c. by rewrite elem_of_cons; auto.
    + destruct (createDuplicate _ _ _ _ _) as [[db1 row]|] eqn:Hc.
      * apply createDuplicate_Some in Hc as (Hm & Ha & Hd & Hk & Hs & Hst & Hby).
        intros H. apply IH in H as (Hm' & Ha' & new & Hd' & Hacc & Hall).
        split; [congruence |]. split; [congruence |].
        exists (row :: new). split; [rewrite Hd', Hd; by rewrite <- app_assoc |].
        split.
        { intros acc' E. rewrite (Hacc acc' E). by rewrite <- app_assoc. }
        constructor.
        { repeat split; try done. exists dup. by rewrite elem_of_cons; auto. }
        eapply Forall_impl; [done |]. intros r (? & ? & c & ? & ?).
        repeat split; try done. exists c. by rewrite elem_of_cons; auto.
      * intros [= <- <-]. repeat split. exists []. rewrite app_nil_r.
        repeat split; [done | constructor].
Qed.

(** After a loop that ran to its end, every candidate is registered. *)
Lemma persistDuplicates_registered env user now dups : ∀ db acc db' acc',
  persistDuplicates env user now dups db acc = (db', Some acc') →
  ∀ c, c ∈ dups →
    ∃ row, row ∈ duplicateCase db'
      ∧ pairKey row = (candOriginalCaseId c, candDuplicateCaseId c).
Proof.
  induction dups as [|dup rest IH]; intros db acc db' acc' H c Hc.
  - by apply elem_of_nil in Hc.
  - simpl in H. apply elem_of_cons in Hc as [-> | Hc].
    + destruct (findUniquePair _ _ _) as [row|] eqn:Hfind.
      * apply findUniquePair_Some in Hfind as [Hin Hk].
        apply persistDuplicates_frame in H as (_ & _ & new & -> & _).
        exists row. by rewrite elem_of_app; auto.
      * destruct (createDuplicate _ _ _ _ _) as [[db1 row]|] eqn:Hcr; [| done].
        apply createDuplicate_Some in Hcr as (_ & _ & Hd & Hk & _).
        apply persistDuplicates_frame in H as (_ & _ & new & -> & _).
        exists row. split; [| done]. rewrite Hd, !elem_of_app, list_elem_of_singleton.
        auto.
    + destruct (findUniquePair _ _ _); [by eapply IH |].
      destruct (createDuplicate _ _ _ _ _) as [[db1 row]|]; [by eapply IH | done].
Qed.

(** Candidates that are all registered are all skipped. *)
Lemma persistDuplicates_skip env user now dups db acc :
  (∀ c, c ∈ dups →
     findUniquePair db (candOriginalCaseId c) (candDuplicateCaseId c) ≠ None) →
  persistDuplicates env user now dups db acc = (db, Some acc).
Proof.
  induction dups as [|dup rest IH]; intros H; simpl; [done |].
  destruct (findUniquePair _ _ _) eqn:E.
  - apply IH. intros c Hc. apply H. by rewrite elem_of_cons; auto.
  - exfalso. eapply H; [| done]. by left.
Qed.

(** A store that never fails lets the loop run to its end. *)
Lemma persistDuplicates_total env user now dups : ∀ db acc,
  (∀ o d, createFails env o d = false) →
  ∃ db' acc', persistDuplicates env user now dups db acc = (db', Some acc').
Proof.
  induction dups as [|dup rest IH]; intros db acc Hok; simpl; [eauto |].
  destruct (findUniquePair _ _ _) eqn:E; [by apply IH |].
  destruct (createDuplicate_ok env db dup user now (Hok _ _) E)
    as (db1 & row & ->).
  by apply IH.
Qed.

Lemma persistDuplicates_app env user now l1 l2 db acc :
  persistDuplicates env user now (l1 ++ l2) db acc
  = match persistDuplicates env user now l1 db acc with
    | (db1, Some acc1) => persistDuplicates env user now l2 db1 acc1
    | (db1, None) => (db1, None)
    end.
Proof.
  revert db acc. induction l1 as [|dup l1 IH]; intros db acc; simpl; [done |].
  destruct (findUniquePair _ _ _); [apply IH |].
  destruct (createDuplicate _ _ _ _ _) as [[db1 row]|]; [apply IH | done].
Qed.

(** ** POST /detect *)

Lemma detectRoute_unfold env db user now threshold :
  detectRoute env db user now threshold
  = match scoreAll env (default 0.7%Q threshold) (findApprovedCases db) with
    | None => (createAuditLog db (detectEntry user), Detect500)
    | Some duplicates =>
        match persistDuplicates env user now duplicates db [] with
        | (db', Some created) =>
            (createAuditLog db' (detectEntry user),
             Detect200 created (length created))
        | (db', None) => (createAuditLog db' (detectEntry user), Detect500)
        end
    end.
Proof.
  unfold detectRoute, detectHandler. destruct (scoreAll _ _ _); [| done].
  by destruct (persistDuplicates _ _ _ _ _ _) as [? [?|]].
Qed.

(** C2, as the code has it.  When the insertion of a candidate fails, the
    loop stops there: the call answers 500, the rows inserted before the
    failure stay, and no later candidate is looked at. *)
Theorem detect_stops_at_first_failure (env : Env) (db : Db)
    (user : jsstring) (now : Z) (threshold : option Q)
    (pre post : list Candidate) (c : Candidate) (db1 : Db)
    (created1 : list DuplicateCase) :
  scoreAll env (default 0.7%Q threshold) (findApprovedCases db)
    = Some (pre ++ c :: post) →
  persistDuplicates env user now pre db [] = (db1, Some created1) →
  findUniquePair db1 (candOriginalCaseId c) (candDuplicateCaseId c) = None →
  createFails env (candOriginalCaseId c) (candDuplicateCaseId c) = true →
  detectRoute env db user now threshold
  = (createAuditLog db1 (detectEntry user), Detect500).
Proof.
  intros Hscore Hpre Hnew Hfail.
  rewrite detectRoute_unfold, Hscore, persistDuplicates_app, Hpre. simpl.
  rewrite Hnew. unfold createDuplicate. by rewrite Hfail.
Qed.

Lemma detect_stops_at_first_failure_witness :
  createFails faultyEnv (js "a") (js "b") = true
  ∧ detectRoute faultyEnv mariaDb moderator 100 None
    = (createAuditLog mariaDb (detectEntry moderator), Detect500).
Proof.
  split; [reflexivity |].
  apply (detect_stops_at_first_failure faultyEnv mariaDb moderator 100 None
           [] (tail mariaCandidates)
           (default candidateAB (head mariaCandidates)) mariaDb []);
    vm_compute; reflexivity.
Defined.

(** C2 as stated fails: the store refuses the pair (a, b) only, and the
    pass answers 500 without having inserted (a, c) or (b, c). *)
Lemma detect_failure_counterexample :
  (∃ ab ac bc,
     scoreAll faultyEnv 0.7%Q (findApprovedCases mariaDb) = Some [ab; ac; bc]
     ∧ createFails faultyEnv (candOriginalCaseId ab) (candDuplicateCaseId ab)
       = true
     ∧ createFails faultyEnv (candOriginalCaseId ac) (candDuplicateCaseId ac)
       = false
     ∧ createFails faultyEnv (candOriginalCaseId bc) (candDuplicateCaseId bc)
       = false)
  ∧ snd (detectRoute faultyEnv mariaDb moderator 100 None) = Detect500
  ∧ duplicateCase (fst (detectRoute faultyEnv mariaDb moderator 100 None))
    = [].
Proof.
  split; [| split; vm_compute; reflexivity].
  do 3 eexists. split; [vm_compute; reflexivity |].
  repeat split; vm_compute; reflexivity.
Qed.

(** C6.  A second detection pass over the registry left by a completed
    first pass, with the same threshold, inserts nothing: every candidate
    is found by the look-up of its ordered pair and skipped. *)
Theorem detect_second_pass_creates_nothing (env : Env) (db db1 : Db)
    (user user' : jsstring) (now now' : Z) (threshold : option Q)
    (created : list DuplicateCase) (total : nat) :
  detectRoute env db user now threshold = (db1, Detect200 created total) →
  (∃ db2, detectRoute env db1 user' now' threshold = (db2, Detect200 [] 0)
          ∧ duplicateCase db2 = duplicateCase db1)
  ∧ ∀ dup rest acc row,
      findUniquePair db1 (candOriginalCaseId dup) (candDuplicateCaseId dup)
        = Some row →
      persistDuplicates env user' now' (dup :: rest) db1 acc
      = persistDuplicates env user' now' rest db1 acc.
Proof.
  intros Hrun. split; [| by intros dup rest acc row; simpl; intros ->].
  rewrite detectRoute_unfold in Hrun.
  destruct (scoreAll _ _ _) as [dups|] eqn:Hscore; [| done].
  destruct (persistDuplicates _ _ _ _ _ _) as [db' [acc|]] eqn:Hp; [| done].
  injection Hrun as <- <- <-.
  pose proof (persistDuplicates_frame _ _ _ _ _ _ _ _ Hp) as (Hm & _).
  pose proof (persistDuplicates_registered _ _ _ _ _ _ _ _ Hp) as Hreg.
  rewrite detectRoute_unfold.
  rewrite (findApprovedCases_ext _ db) by done. rewrite Hscore.
  rewrite persistDuplicates_skip; [by eexists |].
  intros c Hc. destruct (Hreg c Hc) as (row & Hin & Hk).
  by eapply findUniquePair_elem.
Qed.

Lemma detect_second_pass_creates_nothing_witness :
  detectRoute testEnv mariaDb moderator 100 None
  = (detectedDb, Detect200 (duplicateCase detectedDb) 3)
  ∧ ∃ db2, detectRoute testEnv detectedDb moderator 200 None
           = (db2, Detect200 [] 0)
           ∧ duplicateCase db2 = duplicateCase detectedDb.
Proof.
  split; [vm_compute; reflexivity |].
  apply (detect_second_pass_creates_nothing testEnv mariaDb detectedDb
           moderator moderator 100 200 None
           (duplicateCase detectedDb) 3).
  vm_compute. reflexivity.
Defined.

(** A store that never fails lets the whole pass succeed. *)
Lemma detectRoute_total env db user now threshold :
  (∀ o d, createFails env o d = false) →
  ∃ duplicates db' created,
    scoreAll env (default 0.7%Q threshold) (findApprovedCases db)
      = Some duplicates
    ∧ persistDuplicates env user now duplicates db [] = (db', Some created)
    ∧ detectRoute env db user now threshold
      = (createAuditLog db' (detectEntry user),
         Detect200 created (length created)).
Proof.
  intros Hok.
  destruct (scoreAll_total env (default 0.7%Q threshold)
              (findApprovedCases db)) as (dups & Hscore).
  destruct (persistDuplicates_total env user now dups db [] Hok)
    as (db' & created & Hp).
  exists dups, db', created. split; [done |]. split; [done |].
  by rewrite detectRoute_unfold, Hscore, Hp.
Qed.

(** The listing holds exactly the approved rows. *)
Lemma insertByCreatedAt_perm c l : insertByCreatedAt c l ≡ₚ c :: l.
Proof.
  induction l as [|x l IH]; simpl; [done |].
  destruct (_ <=? _)%Z; [done |]. by rewrite IH, Permutation_swap.
Qed.

Lemma findApprovedCases_perm db :
  findApprovedCases db
  ≡ₚ List.filter (λ c, approved c) (missingPerson db).
Proof.
  unfold findApprovedCases.
  induction (List.filter _ _) as [|c l IH]; simpl; [done |].
  by rewrite insertByCreatedAt_perm, IH.
Qed.

(** C8.  With the threshold 1.1 a detection pass inserts no row, whatever
    the cases are.  With the threshold 0, an empty registry and a store
    that does not fail, it inserts a [PENDENTE] row for every two positions
    [i < j] of the listing of approved cases (whether or not the two cases
    share a comparable field). *)
Theorem detect_threshold_extremes (env : Env) (db : Db) (user : jsstring)
    (now : Z) :
  (∃ db', detectRoute env db user now (Some 1.1%Q) = (db', Detect200 [] 0)
          ∧ duplicateCase db' = duplicateCase db)
  ∧ ((∀ o d, createFails env o d = false) →
     duplicateCase db = [] →
     ∃ db' created,
       detectRoute env db user now (Some 0%Q)
         = (db', Detect200 created (length created))
       ∧ duplicateCase db' = created
       ∧ ∀ i j c1 c2,
           i < j →
           findApprovedCases db !! i = Some c1 →
           findApprovedCases db !! j = Some c2 →
           ∃ row, row ∈ created
             ∧ originalCaseId row = mp_id c1
             ∧ duplicateCaseId row = mp_id c2
             ∧ status row = PENDENTE).
Proof.
  split.
  - rewrite detectRoute_unfold. simpl default.
    rewrite scoreAll_above_one by reflexivity. simpl. by eexists.
  - intros Hok Hempty.
    destruct (detectRoute_total env db user now (Some 0%Q) Hok)
      as (dups & db' & created & Hscore & Hp & Hrun).
    simpl default in Hscore.
    pose proof (persistDuplicates_frame _ _ _ _ _ _ _ _ Hp)
      as (_ & _ & new & Hd & Hacc & Hall).
    rewrite Hempty in Hd. simpl in Hd.
    rewrite (Hacc created eq_refl) in *. simpl in *.
    eexists _, new. split; [done |]. split; [done |].
    intros i j c1 c2 Hij Hi Hj.
    destruct (scoreAll_nonpositive env 0%Q _ i j c1 c2 (Qle_refl 0)
                Hij Hi Hj) as (l & q & Hl & _ & Hin).
    assert (l = dups) as -> by congruence.
    destruct (persistDuplicates_registered _ _ _ _ _ _ _ _ Hp _ Hin)
      as (row & Hrow & Hk).
    simpl in Hk. injection Hk as Ho Hdup. rewrite Hd in Hrow.
    exists row. repeat split; try done.
    rewrite Forall_forall in Hall. by apply Hall.
Qed.

Lemma detect_threshold_extremes_witness :
  ∃ row, row ∈ duplicateCase
                 (fst (detectRoute testEnv mariaDb moderator 100 (Some 0%Q)))
    ∧ originalCaseId row = js "a"
    ∧ duplicateCaseId row = js "c"
    ∧ status row = PENDENTE.
Proof.
  destruct (proj2 (detect_threshold_extremes testEnv mariaDb moderator 100))
    as (db' & created & Hrun & Hd & Hall); [reflexivity | reflexivity |].
  rewrite Hrun. simpl fst. rewrite Hd.
  apply (Hall 0 2 maria1 maria3); [lia | reflexivity | reflexivity].
Defined.

(** ** PATCH /:id/resolve *)



Lemma validateResolve_passes body st :
  validateResolve body = Some st → validationPasses body = true.
Proof. unfold validateResolve. by destruct (validationPasses body). Qed.




Lemma findDuplicate_inv db id d c :
  findDuplicate db id = Some (d, c) →
  List.find (λ x, bool_decide (dc_id x = id)) (duplicateCase db) = Some d
  ∧ c = findCase db (duplicateCaseId d).
Proof.
  unfold findDuplicate. destruct (List.find _ _); [| done].
  by intros [= -> <-].
Qed.



(** What the handler does with a valid request on an existing pair. *)
Lemma resolveHandler_found env db user now id body st d c :
  validateResolve body = Some st →
  findDuplicate db id = Some (d, c) →
  let data := resolveData st user now (notesToStore body) in
  let db1 := updateDuplicate db id data in
  resolveHandler env db user now id body
  = if deleteRequested body then
      match deleteMissingPerson db1 (duplicateCaseId d) with
      | None => (db1, Resolve500)
      | Some db2 =>
          match c with
          | None => (db2, Resolve500)
          | Some c' =>
              (createAuditLog db2 (deleteEntry user d c'),
               Resolve200 (data d) (js "Caso duplicado confirmado e removido"))
          end
      end
    else (db1, Resolve200 (data d) (js "Status atualizado")).
Proof.
  unfold resolveHandler. intros Hv ->.
  by rewrite (validateResolve_passes _ _ Hv), Hv.
Qed.





Lemma listRoute_readonly db queryStatus : fst (listRoute db queryStatus) = db.
Proof.
  unfold listRoute. destruct queryStatus; [| done]. by destruct (statusIn _ _).
Qed.




(** ** The scenarios of the specification *)

Example lev_kitten_sitting :
  levenshteinDistance (js "kitten") (js "sitting") = Some 3.
Proof. reflexivity. Qed.

Example similarity_empty_abc :
  ∃ q, calculateSimilarity [] (js "abc") = Some q ∧ (q == 0)%Q.
Proof. eexists. split; reflexivity. Qed.

Example maria_score :
  ∃ q, pairScore testEnv maria1 maria2 = Some q ∧ (q == 0.9)%Q.
Proof. eexists. split; [vm_compute |]; reflexivity. Qed.

Example maria_score_without_age :
  ∃ q, pairScore testEnv maria1 (setAge None maria2) = Some q
       ∧ (q == 0.925)%Q.
Proof. eexists. split; [vm_compute |]; reflexivity. Qed.

Example no_factor_scores_zero :
  pairScore testEnv (setAge None (ageOnly "x" 1)) (ageOnly "y" 1)
  = Some 0%Q.
Proof. reflexivity. Qed.

(** * Further properties *)

(** ** [levenshteinDistance] as a metric *)

Lemma lev_rec_lower a b : ∀ i j,
  i ≤ j + lev_rec a b i j ∧ j ≤ i + lev_rec a b i j.
Proof.
  induction i as [|i IHi]; intros j; [simpl; lia |].
  induction j as [|j IHj]; [simpl; lia |].
  rewrite lev_rec_SS. pose proof (IHi j). pose proof (IHi (S j)).
  destruct (decide _); lia.
Qed.

(** Neighbouring cells of a row differ by at most one, and so do
    neighbouring cells of a column. *)
Lemma lev_rec_neighbours a b : ∀ i j,
  (lev_rec a b i j ≤ 1 + lev_rec a b i (S j)
   ∧ lev_rec a b i (S j) ≤ 1 + lev_rec a b i j)
  ∧ (lev_rec a b i j ≤ 1 + lev_rec a b (S i) j
     ∧ lev_rec a b (S i) j ≤ 1 + lev_rec a b i j).
Proof.
  assert (∀ i,
    (∀ j, lev_rec a b i j ≤ 1 + lev_rec a b i (S j)
          ∧ lev_rec a b i (S j) ≤ 1 + lev_rec a b i j) →
    ∀ j, lev_rec a b i j ≤ 1 + lev_rec a b (S i) j
         ∧ lev_rec a b (S i) j ≤ 1 + lev_rec a b i j) as Hcol.
  { intros i Hrow. induction j as [|j IHj]; [rewrite !lev_rec_0_r; lia |].
    rewrite lev_rec_SS. pose proof (Hrow j). destruct (decide _); lia. }
  assert (∀ i j, lev_rec a b i j ≤ 1 + lev_rec a b i (S j)
                 ∧ lev_rec a b i (S j) ≤ 1 + lev_rec a b i j) as Hrow.
  { induction i as [|i IHi]; intros j; [simpl; lia |].
    pose proof (Hcol i IHi j). pose proof (IHi j).
    rewrite lev_rec_SS. destruct (decide _); lia. }
  intros i j. split; [apply Hrow | by apply Hcol].
Qed.

Lemma lev_rec_triangle a b c : ∀ i j k,
  lev_rec a c i k ≤ lev_rec a b i j + lev_rec b c j k.
Proof.
  induction i as [|i IHi].
  { intros j k. pose proof (lev_rec_lower b c j k). simpl. lia. }
  induction j as [|j IHj].
  { intros k. pose proof (lev_rec_bound a c (S i) k).
    rewrite lev_rec_0_r. change (lev_rec b c 0 k) with k. lia. }
  induction k as [|k IHk].
  { pose proof (lev_rec_lower a b (S i) (S j)). rewrite !lev_rec_0_r. lia. }
  pose proof (IHi (S j) (S k)). pose proof (IHi j (S k)).
  pose proof (IHi j k). pose proof (IHj (S k)). pose proof (IHj k).
  pose proof (lev_rec_neighbours a c i (S k)) as [_ [_ ?]].
  pose proof (lev_rec_neighbours a c (S i) k) as [[_ ?] _].
  pose proof (lev_rec_SS a b i j) as Eab.
  pose proof (lev_rec_SS b c j k) as Ebc.
  pose proof (lev_rec_SS a c i k) as Eac.
  destruct (decide (a !! i = b !! j)), (decide (b !! j = c !! k)),
    (decide (a !! i = c !! k)); try congruence; lia.
Qed.

(** A cell of the table only depends on the prefixes it stands for. *)
Lemma lev_rec_take a b n m : ∀ i j,
  i ≤ n → j ≤ m → lev_rec (take n a) (take m b) i j = lev_rec a b i j.
Proof.
  induction i as [|i IHi]; intros j Hi Hj; [done |].
  induction j as [|j IHj]; [done |].
  rewrite !lev_rec_SS. unfold jsstring, code_unit in *.
  rewrite (lookup_take_lt a n i), (lookup_take_lt b m j) by lia.
  rewrite IHj, !IHi by lia. done.
Qed.

Lemma lev_rec_prefixes a b i j :
  i ≤ length a → j ≤ length b →
  lev_rec a b i j = edit_distance (take i a) (take j b).
Proof.
  intros Hi Hj. unfold edit_distance. rewrite !length_take.
  replace (i `min` length a) with i by lia.
  replace (j `min` length b) with j by lia.
  by rewrite lev_rec_take.
Qed.

Lemma lev_rec_zero a b : ∀ i j,
  i ≤ length a → j ≤ length b →
  lev_rec a b i j = 0 → i = j ∧ take i a = take j b.
Proof.
  induction i as [|i IHi]; intros j Hi Hj.
  { simpl. intros ->. by rewrite !take_0. }
  destruct j as [|j]; [done |].
  rewrite lev_rec_SS.
  destruct (decide _) as [E|]; [| intros ?; exfalso; lia].
  intros H0. destruct (IHi j) as [Eij Ht]; [lia | lia | done |].
  subst j. split; [done |].
  destruct (lookup_lt_is_Some_2 a i) as [x Hx]; [lia |].
  rewrite (take_S_r a i x) by done.
  rewrite (take_S_r b i x) by exact (eq_trans (eq_sym E) Hx).
  by rewrite Ht.
Qed.

Lemma edit_distance_zero a b : edit_distance a b = 0 ↔ a = b.
Proof.
  split; [| intros ->; apply edit_distance_refl].
  intros H. apply lev_rec_zero in H as [_ H]; [| done | done].
  by rewrite !firstn_all in H.
Qed.

Lemma edit_distance_nil_r a : edit_distance a [] = length a.
Proof. apply lev_rec_0_r. Qed.

Lemma edit_distance_nil_l b : edit_distance [] b = length b.
Proof. done. Qed.

(** X1.  [levenshteinDistance] does not depend on the order of its
    arguments. *)
Theorem levenshteinDistance_symmetric (s1 s2 : jsstring) :
  levenshteinDistance s1 s2 = levenshteinDistance s2 s1.
Proof. by rewrite !levenshteinDistance_edit, edit_distance_sym. Qed.

(** X2.  The distance is 0 for equal strings and for no others. *)
Theorem levenshteinDistance_zero_iff (s1 s2 : jsstring) :
  levenshteinDistance s1 s2 = Some 0 ↔ s1 = s2.
Proof.
  rewrite levenshteinDistance_edit, <- edit_distance_zero.
  split; [by intros [= ->] | by intros ->].
Qed.

(** X3.  Triangle inequality: going through a third string is never
    shorter. *)
Theorem levenshteinDistance_triangle (s1 s2 s3 : jsstring) :
  ∃ d12 d23 d13,
    levenshteinDistance s1 s2 = Some d12
    ∧ levenshteinDistance s2 s3 = Some d23
    ∧ levenshteinDistance s1 s3 = Some d13
    ∧ d13 ≤ d12 + d23.
Proof.
  exists (edit_distance s1 s2), (edit_distance s2 s3), (edit_distance s1 s3).
  rewrite !levenshteinDistance_edit. repeat split. apply lev_rec_triangle.
Qed.

(** X4.  The distance lies between the difference of the two lengths and
    the greater length; against the empty string it is the length of the
    other string. *)
Theorem levenshteinDistance_bounds (s1 s2 : jsstring) :
  (∃ d, levenshteinDistance s1 s2 = Some d
        ∧ Nat.max (length s1) (length s2) - Nat.min (length s1) (length s2)
          ≤ d
        ∧ d ≤ Nat.max (length s1) (length s2))
  ∧ levenshteinDistance s1 [] = Some (length s1)
  ∧ levenshteinDistance [] s1 = Some (length s1).
Proof.
  rewrite !levenshteinDistance_edit.
  split; [| by rewrite edit_distance_nil_r, edit_distance_nil_l].
  eexists. split; [done |].
  pose proof (lev_rec_lower s1 s2 (length s1) (length s2)).
  pose proof (edit_distance_bound s1 s2). unfold edit_distance in *. lia.
Qed.

(** X5.  The matrix the function builds has [str2.length + 1] rows of
    [str1.length + 1] cells, and cell [i][j] is the distance the function
    itself returns for the first [j] units of [str1] and the first [i]
    units of [str2]. *)
Theorem levenshteinMatrix_cells (str1 str2 : jsstring) :
  ∃ m, levenshteinMatrix str1 str2 = Some m
    ∧ length m = S (length str2)
    ∧ (∀ i row, m !! i = Some row → length row = S (length str1))
    ∧ ∀ i j, i ≤ length str2 → j ≤ length str1 →
        matrix_get m i j = levenshteinDistance (take j str1) (take i str2).
Proof.
  destruct (levenshteinMatrix_inv str1 str2) as (m & Hm & Hinv).
  exists m. split; [done |]. split; [apply Hinv |]. split.
  - intros i row Hrow. destruct Hinv as [Hlen Hrows].
    assert (i ≤ length str2) as Hi
      by (apply lookup_lt_Some in Hrow; lia).
    rewrite (Hrows i Hi) in Hrow.
    destruct (decide (i < length str2)); [| destruct (decide _); [| lia]];
      injection Hrow as <-; apply table_row_length.
  - intros i j Hi Hj.
    rewrite levenshteinDistance_edit, edit_distance_sym,
      <- lev_rec_prefixes by done.
    destruct (decide (i = length str2)) as [->|].
    + apply (matrix_get_inv _ _ _ _ _ _ _ Hinv); [done | right; lia].
    + apply (matrix_get_inv _ _ _ _ _ _ _ Hinv); [done | left; lia].
Qed.

(** X6.  [calculateSimilarity] returns a number of [0, 1]; it returns 1
    for equal strings only, and 0 when exactly one of the two strings is
    empty. *)
Theorem calculateSimilarity_extremes (s1 s2 : jsstring) :
  ∃ q, calculateSimilarity s1 s2 = Some q
    ∧ (0 <= q <= 1)%Q
    ∧ ((q == 1)%Q ↔ s1 = s2)
    ∧ (s1 = [] → s2 ≠ [] → (q == 0)%Q)
    ∧ (s1 ≠ [] → s2 = [] → (q == 0)%Q).
Proof.
  exists (textSimilarity s1 s2). split; [apply calculateSimilarity_text |].
  split; [apply textSimilarity_range |].
  assert (∀ a b : jsstring, a = [] → b ≠ [] → (textSimilarity a b == 0)%Q)
    as Hempty.
  { intros a b -> Hb. unfold textSimilarity.
    rewrite edit_distance_nil_l. simpl Nat.max.
    destruct (decide _) as [E|E]; [by destruct b |].
    apply num_pos in E. field. lra. }
  split; [| split; [apply Hempty |]].
  - split; [| intros ->; apply textSimilarity_refl].
    unfold textSimilarity. destruct (decide _) as [E|E].
    + intros _. destruct s1, s2; simpl in E; try lia. done.
    + intros Hq. apply edit_distance_zero.
      pose proof (num_pos _ E) as Hpos.
      assert (num (edit_distance s1 s2) == 0)%Q as H0.
      { unfold Qdiv in Hq.
        pose proof (Qinv_lt_0_compat _ Hpos) as Hinv.
        assert (((num (Nat.max (length s1) (length s2))
                  - num (edit_distance s1 s2))
                 * / num (Nat.max (length s1) (length s2))
                 == num (Nat.max (length s1) (length s2))
                    * / num (Nat.max (length s1) (length s2)))%Q) as H1
          by (rewrite Hq, Qmult_inv_r; [reflexivity | lra]).
        assert (¬ (/ num (Nat.max (length s1) (length s2)) == 0)%Q) as Hnz
          by (intros Hz; rewrite Hz in Hinv; by apply Qlt_irrefl in Hinv).
        apply (proj1 (Qmult_inj_r _ _ _ Hnz)) in H1.
        clear Hq Hinv Hnz Hempty. lra. }
      unfold num in H0. change 0%Q with (inject_Z 0) in H0.
      apply (proj1 (inject_Z_injective _ _)) in H0. lia.
  - intros Ha Hb. rewrite textSimilarity_sym. by apply Hempty.
Qed.

(** ** More on the pairwise scorer *)

Local Open Scope Q_scope.

Lemma nameBlock_sym env c1 c2 acc :
  nameBlock env c1 c2 acc = nameBlock env c2 c1 acc.
Proof.
  unfold nameBlock. rewrite (andb_comm (truthy_string (fullName c2))).
  destruct (_ && _); [| done].
  destruct (fullName c1), (fullName c2); try done.
  cbn [mbind option_bind].
  by rewrite !calculateSimilarity_text, textSimilarity_sym.
Qed.

Lemma dateBlock_sym c1 c2 acc : dateBlock c1 c2 acc = dateBlock c2 c1 acc.
Proof.
  unfold dateBlock. rewrite (andb_comm (truthy_date (missingDate c2))).
  destruct (_ && _); [| done].
  destruct (missingDate c1) as [t1|], (missingDate c2) as [t2|]; try done.
  cbn [mbind option_bind].
  by replace (Z.abs (t2 - t1)) with (Z.abs (t1 - t2)) by lia.
Qed.

Lemma provinceBlock_sym c1 c2 acc :
  provinceBlock c1 c2 acc = provinceBlock c2 c1 acc.
Proof.
  unfold provinceBlock. rewrite (andb_comm (truthy_string (province c2))).
  destruct (_ && _); [| done].
  by destruct (decide (province c1 = province c2)),
       (decide (province c2 = province c1)).
Qed.

Lemma ageBlock_sym c1 c2 acc : ageBlock c1 c2 acc = ageBlock c2 c1 acc.
Proof.
  unfold ageBlock. rewrite (andb_comm (truthy_number (age c2))).
  destruct (_ && _); [| done].
  destruct (age c1) as [a1|], (age c2) as [a2|]; try done.
  cbn [mbind option_bind].
  by replace (Z.abs (a2 - a1)) with (Z.abs (a1 - a2)) by lia.
Qed.

(** X7.  The score of a pair does not depend on which of the two cases
    comes first. *)
Theorem pairScore_symmetric (env : Env) (c1 c2 : MissingPerson) :
  pairScore env c1 c2 = pairScore env c2 c1.
Proof.
  unfold pairScore. rewrite nameBlock_sym.
  destruct (nameBlock env c2 c1 (0, 0)) as [a1|]; [| done].
  cbn [mbind option_bind]. rewrite dateBlock_sym.
  destruct (dateBlock c2 c1 a1) as [a2|]; [| done].
  cbn [mbind option_bind]. rewrite provinceBlock_sym.
  destruct (provinceBlock c2 c1 a2) as [a3|]; [| done].
  cbn [mbind option_bind]. by rewrite ageBlock_sym.
Qed.

Lemma factor_same {A} (ok : option A → bool) w sim (x : option A) :
  0 < w → (∀ a, sim a a == 1) →
  Forall (λ f : Q * Q, 0 < f.1 ∧ f.2 == 1) (factor ok w sim x x)
  ∧ (factor ok w sim x x = [] ↔ isPresent x && ok x = false).
Proof.
  intros Hw Hsim. unfold factor. destruct x as [a|]; [| by split].
  simpl. rewrite andb_diag. destruct (ok (Some a)).
  - split; [| done].
    constructor; [split; [done | apply Hsim] | constructor].
  - by split.
Qed.

Lemma weightedMean_all_one fs :
  Forall (λ f : Q * Q, 0 < f.1 ∧ f.2 == 1) fs → fs ≠ [] →
  weightedMean fs == 1.
Proof.
  intros Hall Hne.
  assert (sumQ (map (λ f, f.1 * f.2) fs) == sumQ (map fst fs)
          ∧ 0 <= sumQ (map fst fs)
          ∧ (fs ≠ [] → 0 < sumQ (map fst fs))) as (Hs & _ & Hpos).
  { clear Hne. induction Hall as [|[w s] fs [Hw Hs1] _ (IH1 & IH2 & IH3)];
      cbn [map sumQ foldr fst snd] in *; [by repeat split |].
    unfold sumQ in *.
    split; [rewrite Hs1, IH1; ring | split; [lra | intros _; lra]]. }
  specialize (Hpos Hne). unfold weightedMean.
  destruct (Qlt_le_dec _ _); [| lra]. rewrite Hs. field. lra.
Qed.

Lemma dateProximity_same t : dateProximity t t == 1.
Proof. unfold dateProximity. by rewrite Z.sub_diag. Qed.

Lemma ageProximity_same a : ageProximity a a == 1.
Proof. unfold ageProximity. by rewrite Z.sub_diag. Qed.

Lemma provinceEquality_same p : provinceEquality p p == 1.
Proof. unfold provinceEquality. by destruct (decide _). Qed.

(** X8.  Two cases with the same name, date, province and age score 1 as
    soon as one of these fields is usable, so that a detection pass with a
    threshold of at most 1 makes them a candidate; they score 0 when none
    is. *)
Theorem identical_fields_score_one (env : Env) (c1 c2 : MissingPerson) :
  fullName c1 = fullName c2 → missingDate c1 = missingDate c2 →
  province c1 = province c2 → age c1 = age c2 →
  ∃ q, pairScore env c1 c2 = Some q
    ∧ q == if truthy_string (fullName c1) || truthy_date (missingDate c1)
              || truthy_string (province c1) || truthy_number (age c1)
           then 1 else 0.
Proof.
  intros Hn Hd Hp Ha.
  destruct (pairScore_mean env c1 c2) as (q & Hq & Heq).
  exists q. split; [done |]. rewrite Heq. clear Hq Heq.
  unfold truthyFactors, factorsBy. rewrite <- Hn, <- Hd, <- Hp, <- Ha.
  destruct (factor_same truthy_string 0.4
              (λ a b, textSimilarity (toLowerCase env a) (toLowerCase env b))
              (fullName c1) eq_refl (λ a, textSimilarity_refl _)) as [F1 E1].
  destruct (factor_same truthy_date 0.2 dateProximity (missingDate c1)
              eq_refl dateProximity_same) as [F2 E2].
  destruct (factor_same truthy_string 0.2 provinceEquality (province c1)
              eq_refl provinceEquality_same) as [F3 E3].
  destruct (factor_same truthy_number 0.2 ageProximity (age c1)
              eq_refl ageProximity_same) as [F4 E4].
  assert (∀ s, isPresent s && truthy_string s = truthy_string s) as Ps
    by (by intros [[|]|]).
  assert (∀ s, isPresent s && truthy_date s = truthy_date s) as Pd
    by (by intros []).
  assert (∀ s, isPresent s && truthy_number s = truthy_number s) as Pn
    by (by intros []).
  rewrite Ps in E1, E3. rewrite Pd in E2. rewrite Pn in E4.
  destruct (truthy_string (fullName c1)) eqn:T1;
    [simpl orb; apply weightedMean_all_one;
       [by repeat apply Forall_app_2 |];
     intros E; apply app_eq_nil in E as [E _]; apply E1 in E; done |].
  rewrite (proj2 E1 eq_refl). simpl app.
  destruct (truthy_date (missingDate c1)) eqn:T2;
    [simpl orb; apply weightedMean_all_one;
       [by repeat apply Forall_app_2 |];
     intros E; apply app_eq_nil in E as [E _]; apply E2 in E; done |].
  rewrite (proj2 E2 eq_refl). simpl app.
  destruct (truthy_string (province c1)) eqn:T3;
    [simpl orb; apply weightedMean_all_one;
       [by repeat apply Forall_app_2 |];
     intros E; apply app_eq_nil in E as [E _]; apply E3 in E; done |].
  rewrite (proj2 E3 eq_refl). simpl app.
  destruct (truthy_number (age c1)) eqn:T4;
    [simpl orb; apply weightedMean_all_one; [done |];
     intros E; apply E4 in E; done |].
  rewrite (proj2 E4 eq_refl). reflexivity.
Qed.

Lemma identical_fields_score_one_witness :
  mp_id maria1 ≠ mp_id maria1Again
  ∧ ∃ q, pairScore testEnv maria1 maria1Again = Some q ∧ q == 1.
Proof.
  split; [discriminate |].
  apply (identical_fields_score_one testEnv maria1 maria1Again);
    reflexivity.
Defined.

Local Close Scope Q_scope.

(** ** More on POST /detect *)

Lemma findUniquePair_None db o d :
  findUniquePair db o d = None ↔ (o, d) ∉ map pairKey (duplicateCase db).
Proof.
  split.
  - intros Hnone Hin. apply list_elem_of_fmap in Hin as (row & Hk & Hrow).
    by eapply findUniquePair_elem.
  - intros Hnot. destruct (findUniquePair db o d) as [row|] eqn:E; [| done].
    apply findUniquePair_Some in E as [Hin Hk]. exfalso. apply Hnot.
    rewrite <- Hk. by apply list_elem_of_fmap_2.
Qed.

Lemma findUniquePair_prefix db db' new o d :
  duplicateCase db' = duplicateCase db ++ new →
  findUniquePair db' o d = None → findUniquePair db o d = None.
Proof.
  rewrite !findUniquePair_None. intros -> Hnot Hin. apply Hnot.
  rewrite map_app, elem_of_app. by left.
Qed.

Lemma createDuplicate_fresh env db dup user now db' row :
  createDuplicate env db dup user now = Some (db', row) →
  freshRow user now row
  ∧ findUniquePair db (originalCaseId row) (duplicateCaseId row) = None
  ∧ createFails env (originalCaseId row) (duplicateCaseId row) = false
  ∧ dc_id row = newId env (idCounter db).
Proof.
  unfold createDuplicate.
  destruct (createFails _ _ _) eqn:Hf; [done |].
  destruct (findUniquePair _ _ _) eqn:Hu; [done |].
  by intros [= <- <-].
Qed.

(** The rows a run of the loop inserts. *)
Lemma persistDuplicates_new_rows env user now dups : ∀ db acc db' res,
  persistDuplicates env user now dups db acc = (db', res) →
  ∃ new, duplicateCase db' = duplicateCase db ++ new
    ∧ Forall (λ row,
        freshRow user now row
        ∧ findUniquePair db (originalCaseId row) (duplicateCaseId row) = None
        ∧ ∃ c, c ∈ dups
            ∧ pairKey row = (candOriginalCaseId c, candDuplicateCaseId c)
            ∧ similarityScore row = candSimilarityScore c) new.
Proof.
  induction dups as [|dup rest IH]; intros db acc db' res; simpl.
  - intros [= <- <-]. exists []. by rewrite app_nil_r.
  - destruct (findUniquePair _ _ _) eqn:Hfind.
    + intros H. apply IH in H as (new & Hd & Hall). exists new.
      split; [done |]. eapply Forall_impl; [done |].
      intros row (? & ? & c & ? & ?). split; [done |]. split; [done |].
      exists c. by rewrite elem_of_cons; auto.
    + destruct (createDuplicate _ _ _ _ _) as [[db1 row]|] eqn:Hc.
      * pose proof (createDuplicate_fresh _ _ _ _ _ _ _ Hc) as (Hfr & Hno & _).
        apply createDuplicate_Some in Hc as (_ & _ & Hd & Hk & Hs & _).
        intros H. apply IH in H as (new & Hd' & Hall).
        exists (row :: new).
        split; [rewrite Hd', Hd; by rewrite <- app_assoc |].
        constructor.
        { split; [done |]. split; [done |].
          exists dup. by rewrite elem_of_cons; auto. }
        eapply Forall_impl; [done |]. intros r (? & Hr & c & ? & ?).
        split; [done |]. split; [by eapply findUniquePair_prefix |].
        exists c. by rewrite elem_of_cons; auto.
      * intros [= <- <-]. exists []. by rewrite app_nil_r.
Qed.

(** The listing of approved cases. *)
Lemma insertByCreatedAt_sorted c l :
  StronglySorted newerFirst l → StronglySorted newerFirst (insertByCreatedAt c l).
Proof.
  induction 1 as [|x l Hs IH Hx]; simpl; [by repeat constructor |].
  destruct (Z.leb_spec (createdAt x) (createdAt c)).
  - constructor; [by constructor |]. constructor; [done |].
    eapply Forall_impl; [done |]. unfold newerFirst. intros; simpl in *; lia.
  - constructor; [done |].
    rewrite insertByCreatedAt_perm. constructor; [unfold newerFirst; lia | done].
Qed.

Lemma findApprovedCases_sorted db :
  StronglySorted newerFirst (findApprovedCases db).
Proof.
  unfold findApprovedCases.
  induction (List.filter _ _) as [|c l IH]; simpl; [constructor |].
  by apply insertByCreatedAt_sorted.
Qed.

Lemma findApprovedCases_elem db c :
  c ∈ findApprovedCases db ↔ c ∈ missingPerson db ∧ approved c = true.
Proof.
  rewrite findApprovedCases_perm, !list_elem_of_In. apply filter_In.
Qed.

Lemma sorted_lookup (l : list MissingPerson) i j c1 c2 :
  StronglySorted newerFirst l → i < j →
  l !! i = Some c1 → l !! j = Some c2 → newerFirst c1 c2.
Proof.
  intros Hs. revert i j. induction Hs as [|x l Hs IH Hx]; intros i j Hij Hi Hj.
  - done.
  - destruct j as [|j]; [lia |]. destruct i as [|i].
    + injection Hi as <-. rewrite Forall_forall in Hx. apply Hx.
      apply list_elem_of_lookup. eauto.
    + apply (IH i j); [lia | done | done].
Qed.

Lemma detectRoute_200 env db user now threshold db' created total :
  detectRoute env db user now threshold = (db', Detect200 created total) →
  ∃ dups db1,
    scoreAll env (default 0.7%Q threshold) (findApprovedCases db) = Some dups
    ∧ persistDuplicates env user now dups db [] = (db1, Some created)
    ∧ db' = createAuditLog db1 (detectEntry user)
    ∧ total = length created.
Proof.
  rewrite detectRoute_unfold.
  destruct (scoreAll _ _ _) as [dups|] eqn:Hscore; [| done].
  destruct (persistDuplicates _ _ _ _ _ _) as [db1 [acc|]] eqn:Hp; [| done].
  intros [= <- <- <-]. by exists dups, db1.
Qed.

(** X9.  The rows a successful detection pass reports are the rows it
    appended to the registry.  Each of them is [PENDENTE], carries the
    caller as [detectedBy] and no resolution data, has a score of [0, 1]
    that reaches the threshold, and stands for an ordered pair that was not
    registered before the pass. *)
Theorem detect_created_rows (env : Env) (db db' : Db) (user : jsstring)
    (now : Z) (threshold : option Q) (created : list DuplicateCase)
    (total : nat) :
  detectRoute env db user now threshold = (db', Detect200 created total) →
  total = length created
  ∧ duplicateCase db' = duplicateCase db ++ created
  ∧ ∀ row, row ∈ created →
      freshRow user now row
      ∧ (default 0.7 threshold <= similarityScore row)%Q
      ∧ (0 <= similarityScore row <= 1)%Q
      ∧ findUniquePair db (originalCaseId row) (duplicateCaseId row) = None.
Proof.
  intros Hrun.
  apply detectRoute_200 in Hrun as (dups & db1 & Hscore & Hp & -> & ->).
  split; [done |].
  pose proof (persistDuplicates_frame _ _ _ _ _ _ _ _ Hp)
    as (_ & _ & new & Hd & Hacc & _).
  pose proof (persistDuplicates_new_rows _ _ _ _ _ _ _ _ Hp)
    as (new' & Hd' & Hall).
  assert (new' = new) as -> by (rewrite Hd in Hd'; by apply app_inv_head in Hd').
  rewrite (Hacc created eq_refl). simpl. split; [done |].
  intros row Hrow. rewrite Forall_forall in Hall.
  destruct (Hall row Hrow) as (Hfr & Hno & c & Hc & Hk & Hs).
  repeat split; try apply Hfr; try done.
  all: destruct (scoreAll_elem env (default 0.7%Q threshold)
                   (findApprovedCases db)) as (l & Hl & Helem);
    assert (l = dups) as -> by congruence;
    apply Helem in Hc as (i & j & c1 & c2 & q & _ & _ & _ & Hq & Hle & ->);
    simpl in Hs; rewrite Hs.
  - by apply Qle_bool_iff.
  - destruct (pairScore_range env c1 c2) as (q' & Hq' & Hr).
    assert (q' = q) as -> by congruence. apply Hr.
  - destruct (pairScore_range env c1 c2) as (q' & Hq' & Hr).
    assert (q' = q) as -> by congruence. apply Hr.
Qed.

Lemma detect_created_rows_witness :
  length (duplicateCase detectedDb) = 3
  ∧ ∀ row, row ∈ duplicateCase detectedDb → freshRow moderator 100 row.
Proof.
  destruct (detect_created_rows testEnv mariaDb detectedDb moderator 100 None
              (duplicateCase detectedDb) 3) as (_ & _ & Hrows);
    [vm_compute; reflexivity |].
  split; [reflexivity |]. intros row Hrow. by apply Hrows.
Defined.

(** X10.  Every row a detection pass inserts pairs two approved cases of
    the table, scored by the scorer, and the one recorded as original was
    created no earlier than the one recorded as duplicate. *)
Theorem detect_pairs_approved_cases (env : Env) (db db' : Db)
    (user : jsstring) (now : Z) (threshold : option Q)
    (created : list DuplicateCase) (total : nat) :
  detectRoute env db user now threshold = (db', Detect200 created total) →
  ∀ row, row ∈ created →
    ∃ c1 c2,
      c1 ∈ missingPerson db ∧ c2 ∈ missingPerson db
      ∧ approved c1 = true ∧ approved c2 = true
      ∧ originalCaseId row = mp_id c1 ∧ duplicateCaseId row = mp_id c2
      ∧ (createdAt c2 <= createdAt c1)%Z
      ∧ pairScore env c1 c2 = Some (similarityScore row).
Proof.
  intros Hrun row Hrow.
  apply detectRoute_200 in Hrun as (dups & db1 & Hscore & Hp & -> & ->).
  pose proof (persistDuplicates_frame _ _ _ _ _ _ _ _ Hp)
    as (_ & _ & new & _ & Hacc & Hall).
  rewrite (Hacc created eq_refl) in Hrow. simpl in Hrow.
  rewrite Forall_forall in Hall.
  destruct (Hall row Hrow) as (_ & _ & c & Hc & Hk & Hs).
  destruct (scoreAll_elem env (default 0.7%Q threshold)
              (findApprovedCases db)) as (l & Hl & Helem).
  assert (l = dups) as -> by congruence.
  apply Helem in Hc as (i & j & c1 & c2 & q & Hij & Hi & Hj & Hq & _ & ->).
  simpl in Hk, Hs. injection Hk as Ho Hd.
  assert (c1 ∈ findApprovedCases db) as H1
    by (apply list_elem_of_lookup; eauto).
  assert (c2 ∈ findApprovedCases db) as H2
    by (apply list_elem_of_lookup; eauto).
  apply findApprovedCases_elem in H1 as [? ?].
  apply findApprovedCases_elem in H2 as [? ?].
  exists c1, c2. repeat split; try done.
  - apply (sorted_lookup _ i j c1 c2 (findApprovedCases_sorted db)); done.
  - by rewrite Hs.
Qed.

Lemma detect_pairs_approved_cases_witness :
  Forall (λ row,
    ∃ c1 c2,
      c1 ∈ missingPerson mariaDb ∧ c2 ∈ missingPerson mariaDb
      ∧ approved c1 = true ∧ approved c2 = true
      ∧ originalCaseId row = mp_id c1 ∧ duplicateCaseId row = mp_id c2
      ∧ (createdAt c2 <= createdAt c1)%Z
      ∧ pairScore testEnv c1 c2 = Some (similarityScore row))
    (duplicateCase detectedDb).
Proof.
  apply Forall_forall.
  apply (detect_pairs_approved_cases testEnv mariaDb detectedDb moderator 100
           None (duplicateCase detectedDb) 3).
  vm_compute. reflexivity.
Defined.

(** X12.  With fewer than two approved cases a detection pass compares
    nothing: it answers 200 with no rows and only writes its audit entry. *)
Theorem detect_needs_two_cases (env : Env) (db : Db) (user : jsstring)
    (now : Z) (threshold : option Q) :
  length (List.filter (λ c, approved c) (missingPerson db)) < 2 →
  detectRoute env db user now threshold
  = (createAuditLog db (detectEntry user), Detect200 [] 0).
Proof.
  intros Hlen. rewrite detectRoute_unfold.
  rewrite <- (Permutation_length (findApprovedCases_perm db)) in Hlen.
  destruct (findApprovedCases db) as [|c1 [|c2 l]]; simpl in *;
    [done | done | lia].
Qed.

Lemma detect_needs_two_cases_witness :
  detectRoute testEnv
    {| missingPerson := [maria1]; duplicateCase := []; auditLog := [];
       idCounter := 0 |} moderator 100 (Some 0%Q)
  = (createAuditLog
       {| missingPerson := [maria1]; duplicateCase := []; auditLog := [];
          idCounter := 0 |} (detectEntry moderator),
     Detect200 [] 0).
Proof.
  apply (detect_needs_two_cases testEnv
           {| missingPerson := [maria1]; duplicateCase := []; auditLog := [];
              idCounter := 0 |} moderator 100 (Some 0%Q)).
  simpl. lia.
Defined.

Lemma scoreAgainst_threshold env t1 t2 c1 rest l1 l2 :
  (t1 <= t2)%Q →
  scoreAgainst env t1 c1 rest = Some l1 →
  scoreAgainst env t2 c1 rest = Some l2 →
  l2 `sublist_of` l1.
Proof.
  intros Ht. revert l1 l2. induction rest as [|c2 rest IH]; intros l1 l2; simpl.
  - by intros [= <-] [= <-].
  - destruct (pairScore env c1 c2) as [q|]; [| done]. simpl.
    destruct (scoreAgainst env t1 c1 rest) as [m1|]; [| done].
    destruct (scoreAgainst env t2 c1 rest) as [m2|]; [| done]. simpl.
    intros [= <-] [= <-]. specialize (IH _ _ eq_refl eq_refl).
    destruct (Qle_bool t2 q) eqn:E2.
    + assert (Qle_bool t1 q = true) as ->.
      { apply Qle_bool_iff. apply Qle_bool_iff in E2.
        by apply (Qle_trans _ t2). }
      by constructor.
    + destruct (Qle_bool t1 q); [by constructor | done].
Qed.

(** X13.  Raising the threshold only removes candidates: the candidates
    found with the higher threshold are, in the same order, among those
    found with the lower one. *)
Theorem candidates_shrink_with_threshold (env : Env) (t1 t2 : Q)
    (cases : list MissingPerson) :
  (t1 <= t2)%Q →
  ∃ l1 l2, scoreAll env t1 cases = Some l1
    ∧ scoreAll env t2 cases = Some l2
    ∧ l2 `sublist_of` l1.
Proof.
  intros Ht. induction cases as [|c1 rest (l1 & l2 & H1 & H2 & Hsub)]; simpl.
  - by exists [], [].
  - destruct (scoreAgainst_elem env t1 c1 rest) as (h1 & Hh1 & _).
    destruct (scoreAgainst_elem env t2 c1 rest) as (h2 & Hh2 & _).
    rewrite Hh1, Hh2, H1, H2. simpl. eexists _, _. repeat split.
    apply sublist_app; [| done]. by eapply scoreAgainst_threshold.
Qed.

Lemma candidates_shrink_with_threshold_witness :
  ∃ l1 l2, scoreAll testEnv 0.7%Q (findApprovedCases mariaDb) = Some l1
    ∧ scoreAll testEnv 0.95%Q (findApprovedCases mariaDb) = Some l2
    ∧ l2 `sublist_of` l1.
Proof.
  apply (candidates_shrink_with_threshold testEnv 0.7%Q 0.95%Q).
  vm_compute. discriminate.
Defined.

(** ** Invariants kept by the routes *)

Lemma resolveRoute_unfold env db user now path id body :
  resolveRoute env db user now path id body
  = (createAuditLog (fst (resolveHandler env db user now id body))
       (resolveEntry user path id),
     snd (resolveHandler env db user now id body)).
Proof. unfold resolveRoute. by destruct (resolveHandler _ _ _ _ _ _). Qed.

Lemma persistDuplicates_uniquePairs env user now dups : ∀ db acc db' res,
  persistDuplicates env user now dups db acc = (db', res) →
  uniquePairs db → uniquePairs db'.
Proof.
  induction dups as [|dup rest IH]; intros db acc db' res; simpl.
  - by intros [= <- <-].
  - destruct (findUniquePair _ _ _) eqn:Hfind; [apply IH |].
    destruct (createDuplicate _ _ _ _ _) as [[db1 row]|] eqn:Hc;
      [| by intros [= <- <-]].
    intros H Hu. apply IH in H; [done |].
    apply createDuplicate_Some in Hc as (_ & _ & Hd & Hk & _).
    unfold uniquePairs in *. rewrite Hd, map_app. simpl.
    apply NoDup_app. split; [done |]. split; [| apply NoDup_singleton].
    intros k Hin ->%list_elem_of_singleton.
    apply findUniquePair_None in Hfind. apply Hfind. by rewrite <- Hk.
Qed.

Lemma resolveData_pairKey st user now notes d :
  pairKey (resolveData st user now notes d) = pairKey d.
Proof. done. Qed.

Lemma updateDuplicate_keys db id st user now notes :
  map pairKey (duplicateCase (updateDuplicate db id
                                (resolveData st user now notes)))
  = map pairKey (duplicateCase db).
Proof.
  unfold updateDuplicate. simpl. rewrite map_map. apply map_ext.
  intros d. by destruct (decide _).
Qed.

Lemma deleteMissingPerson_Some db id db' :
  deleteMissingPerson db id = Some db' →
  missingPerson db' = filter (λ c, mp_id c ≠ id) (missingPerson db)
  ∧ duplicateCase db'
    = filter (λ d, originalCaseId d ≠ id ∧ duplicateCaseId d ≠ id)
        (duplicateCase db)
  ∧ auditLog db' = auditLog db.
Proof.
  unfold deleteMissingPerson. destruct (findCase db id); [| done].
  by intros [= <-].
Qed.

(** The database the handler leaves is the old one, or the updated one, or
    the updated one after the deletion. *)
Lemma resolveHandler_db env db user now id body :
  let db' := fst (resolveHandler env db user now id body) in
  db' = db
  ∨ ∃ st notes, let db1 := updateDuplicate db id
                             (resolveData st user now notes) in
      db' = db1
      ∨ ∃ cid db2, deleteMissingPerson db1 cid = Some db2
          ∧ (db' = db2 ∨ ∃ entry, db' = createAuditLog db2 entry).
Proof.
  unfold resolveHandler. destruct (validationPasses body); [| by left]. simpl.
  destruct (findDuplicate db id) as [[d c]|]; [| by left].
  destruct (validateResolve body) as [st|]; [| by left].
  right. exists st, (notesToStore body). simpl.
  destruct (deleteRequested body); [| by left].
  destruct (deleteMissingPerson _ _) as [db2|] eqn:Hdel; [| by left].
  right. exists (duplicateCaseId d), db2. split; [done |].
  destruct c; [right; by eexists | by left].
Qed.

(** X14.  The unique index on the ordered pair is never violated: if no
    ordered pair occurs twice in the registry, none does after a detection
    pass or a resolve request, whatever their outcome. *)
Theorem unique_pairs_preserved (env : Env) (db : Db) :
  uniquePairs db →
  (∀ user now threshold,
     uniquePairs (fst (detectRoute env db user now threshold)))
  ∧ (∀ user now path id body,
       uniquePairs (fst (resolveRoute env db user now path id body))).
Proof.
  intros Hu. split.
  - intros user now threshold. rewrite detectRoute_unfold.
    destruct (scoreAll _ _ _) as [dups|]; [| done].
    destruct (persistDuplicates _ _ _ _ _ _) as [db1 res] eqn:Hp.
    apply persistDuplicates_uniquePairs in Hp; [| done].
    by destruct res.
  - intros user now path id body. rewrite resolveRoute_unfold. simpl.
    change (uniquePairs (fst (resolveHandler env db user now id body))).
    destruct (resolveHandler_db env db user now id body)
      as [-> | (st & notes & [-> | (cid & db2 & Hdel & Hdb)])]; [done | |].
    + unfold uniquePairs. rewrite updateDuplicate_keys. exact Hu.
    + apply deleteMissingPerson_Some in Hdel as (_ & Hd & _).
      assert (uniquePairs db2) as H2.
      { unfold uniquePairs. rewrite Hd.
        apply (sublist_NoDup _
                 (map pairKey
                    (duplicateCase
                       (updateDuplicate db id
                          (resolveData st user now notes)))));
          [rewrite updateDuplicate_keys; exact Hu |].
        apply fmap_sublist, sublist_filter. }
      by destruct Hdb as [-> | [entry ->]].
Qed.

Lemma unique_pairs_preserved_witness :
  uniquePairs detectedDb
  ∧ uniquePairs
      (fst (resolveRoute testEnv confirmedDb moderator 200 (js "/dup0/resolve") (js "dup0")
              confirmAndDeleteBody)).
Proof.
  split.
  - apply (unique_pairs_preserved testEnv mariaDb); constructor.
  - apply (unique_pairs_preserved testEnv confirmedDb).
    apply NoDup_singleton.
Defined.

Lemma findCase_is_Some db id :
  is_Some (findCase db id) ↔ ∃ c, c ∈ missingPerson db ∧ mp_id c = id.
Proof.
  unfold findCase. split.
  - intros [c Hc]. apply find_some in Hc as [Hin Hid].
    exists c. split; [by apply list_elem_of_In |].
    by apply bool_decide_eq_true in Hid.
  - intros (c & Hin & Hid).
    destruct (List.find _ _) as [x|] eqn:E; [by eexists |].
    apply list_elem_of_In in Hin.
    pose proof (find_none _ _ E _ Hin) as Hf. simpl in Hf.
    by apply bool_decide_eq_false in Hf.
Qed.

Lemma foreignKeys_ext db db' :
  missingPerson db' = missingPerson db →
  duplicateCase db' = duplicateCase db →
  foreignKeys db → foreignKeys db'.
Proof.
  unfold foreignKeys, findCase. by intros -> ->.
Qed.

Lemma updateDuplicate_foreignKeys db id st user now notes :
  foreignKeys db →
  foreignKeys (updateDuplicate db id (resolveData st user now notes)).
Proof.
  intros Hfk row Hrow. unfold updateDuplicate in Hrow. simpl in Hrow.
  apply list_elem_of_fmap in Hrow as (d & -> & Hd).
  destruct (Hfk d Hd) as [H1 H2]. by destruct (decide _).
Qed.

Lemma deleteMissingPerson_foreignKeys db id db' :
  deleteMissingPerson db id = Some db' → foreignKeys db → foreignKeys db'.
Proof.
  intros Hdel Hfk row Hrow.
  apply deleteMissingPerson_Some in Hdel as (Hm & Hd & _).
  rewrite Hd in Hrow. apply list_elem_of_filter in Hrow as [[Ho Hdup] Hrow].
  destruct (Hfk row Hrow) as [H1 H2].
  apply findCase_is_Some in H1 as (c1 & Hc1 & E1).
  apply findCase_is_Some in H2 as (c2 & Hc2 & E2).
  split; apply findCase_is_Some; rewrite Hm.
  - exists c1. split; [| done]. apply list_elem_of_filter. split; congruence.
  - exists c2. split; [| done]. apply list_elem_of_filter. split; congruence.
Qed.

(** X15.  Referential integrity is kept: if both cases of every pair are
    in the store, they still are after a detection pass or a resolve
    request, whatever their outcome -- a detection pass only pairs cases it
    has read, and a deletion takes the pairs of the deleted case with it. *)
Theorem foreign_keys_preserved (env : Env) (db : Db) :
  foreignKeys db →
  (∀ user now threshold,
     foreignKeys (fst (detectRoute env db user now threshold)))
  ∧ (∀ user now path id body,
       foreignKeys (fst (resolveRoute env db user now path id body))).
Proof.
  intros Hfk. split.
  - intros user now threshold. rewrite detectRoute_unfold.
    destruct (scoreAll_elem env (default 0.7%Q threshold)
                (findApprovedCases db)) as (dups & Hscore & Helem).
    rewrite Hscore.
    destruct (persistDuplicates _ _ _ _ _ _) as [db1 res] eqn:Hp.
    pose proof (persistDuplicates_new_rows _ _ _ _ _ _ _ _ Hp)
      as (new & Hd & Hall).
    pose proof (persistDuplicates_frame _ _ _ _ _ _ _ _ Hp) as (Hm & _).
    assert (foreignKeys db1) as H1.
    { intros row Hrow. rewrite Hd in Hrow.
      apply elem_of_app in Hrow as [Hrow | Hrow].
      - destruct (Hfk row Hrow) as [? ?]. unfold findCase in *.
        by rewrite Hm.
      - rewrite Forall_forall in Hall.
        destruct (Hall row Hrow) as (_ & _ & c & Hc & Hk & _).
        apply Helem in Hc
          as (i & j & c1 & c2 & q & _ & Hi & Hj & _ & _ & ->).
        simpl in Hk. injection Hk as Ho Hdup.
        assert (c1 ∈ findApprovedCases db) as E1
          by (apply list_elem_of_lookup; eauto).
        assert (c2 ∈ findApprovedCases db) as E2
          by (apply list_elem_of_lookup; eauto).
        apply findApprovedCases_elem in E1 as [E1 _].
        apply findApprovedCases_elem in E2 as [E2 _].
        split; apply findCase_is_Some; rewrite Hm; eauto. }
    destruct res; by apply (foreignKeys_ext db1).
  - intros user now path id body. rewrite resolveRoute_unfold. simpl.
    apply (foreignKeys_ext (fst (resolveHandler env db user now id body)));
      [done | done |].
    destruct (resolveHandler_db env db user now id body)
      as [-> | (st & notes & [-> | (cid & db2 & Hdel & Hdb)])]; [done | |].
    + by apply updateDuplicate_foreignKeys.
    + apply deleteMissingPerson_foreignKeys in Hdel;
        [| by apply updateDuplicate_foreignKeys].
      destruct Hdb as [-> | [entry ->]]; [done |].
      by apply (foreignKeys_ext db2).
Qed.

Lemma foreign_keys_preserved_witness :
  foreignKeys confirmedDb
  ∧ foreignKeys
      (fst (resolveRoute testEnv confirmedDb moderator 200 (js "/dup0/resolve") (js "dup0")
              confirmAndDeleteBody)).
Proof.
  assert (foreignKeys confirmedDb) as H.
  { intros row Hrow. apply list_elem_of_singleton in Hrow as ->.
    split; by eexists. }
  split; [exact H |]. by apply (foreign_keys_preserved testEnv confirmedDb).
Defined.

(** ** More on PATCH /:id/resolve *)

Lemma validationPasses_false body :
  validationPasses body = false
  ↔ (∀ v, bodyStatus body = Some v → isResolveStatus v = false)
    ∨ (∃ v, bodyResolutionNotes body = Some v ∧ isString v = false)
    ∨ (∃ v, bodyDeleteDuplicate body = Some v ∧ isBoolean v = false).
Proof.
  unfold validationPasses, optional. rewrite !andb_false_iff. split.
  - intros [[H | H] | H].
    + left. intros v E. by rewrite E in H.
    + right; left. destruct (bodyResolutionNotes body) as [v|]; [| done].
      by exists v.
    + right; right. destruct (bodyDeleteDuplicate body) as [v|]; [| done].
      by exists v.
  - intros [H | [(v & E & H) | (v & E & H)]].
    + left; left. destruct (bodyStatus body) as [v|]; [| done]. by apply H.
    + left; right. by rewrite E.
    + right. by rewrite E.
Qed.

Lemma resolveHandler_400 env db user now id body :
  validationPasses body = false
  ↔ resolveHandler env db user now id body = (db, Resolve400).
Proof.
  unfold resolveHandler. destruct (validationPasses body); simpl; [| done].
  split; [done |]. destruct (findDuplicate db id) as [[d c]|]; [| done].
  destruct (validateResolve body); [| done].
  destruct (deleteRequested body); [| done].
  destruct (deleteMissingPerson _ _); [| done]. by destruct c.
Qed.

(** X16.  A resolve request is answered 400 exactly when its status is
    missing or is none of CONFIRMADO, REJEITADO, RESOLVIDO, or it has
    [resolutionNotes] that are not a string, or it has a [deleteDuplicate]
    that [isBoolean] refuses.  It is then answered before the pair is
    looked up, and nothing is written but the entry of the audit
    middleware.  PENDENTE is no accepted status and [null] no accepted
    note. *)
Theorem resolve_rejects_invalid_body (env : Env) (db : Db) (user : jsstring)
    (now : Z) (path id : jsstring) (body : ResolveBody) :
  let refused :=
    resolveRoute env db user now path id body
    = ({| missingPerson := missingPerson db;
          duplicateCase := duplicateCase db;
          auditLog :=
            auditLog db
            ++ [{| userId := Some user;
                   action := js "RESOLVE_DUPLICATE";
                   entityType := Some (js "CASE");
                   entityId := Some id;
                   details := Some (js "RESOLVE_DUPLICATE - PATCH " ++ path) |}];
          idCounter := idCounter db |},
       Resolve400) in
  (refused
   ↔ (∀ v, bodyStatus body = Some v → isResolveStatus v = false)
     ∨ (∃ v, bodyResolutionNotes body = Some v ∧ isString v = false)
     ∨ (∃ v, bodyDeleteDuplicate body = Some v ∧ isBoolean v = false))
  ∧ (snd (resolveRoute env db user now path id body) = Resolve400 → refused)
  ∧ (bodyStatus body = None → refused)
  ∧ (bodyStatus body = Some (JsString (js "PENDENTE")) → refused)
  ∧ (bodyResolutionNotes body = Some JsNull → refused)
  ∧ (∀ q, bodyResolutionNotes body = Some (JsNumber q) → refused)
  ∧ (bodyDeleteDuplicate body = Some JsNull → refused)
  ∧ (bodyDeleteDuplicate body = Some (JsString (js "yes")) → refused).
Proof.
  intros refused.
  assert (snd (resolveRoute env db user now path id body) = Resolve400 →
          validationPasses body = false) as Hsnd.
  { rewrite resolveRoute_unfold. simpl. unfold resolveHandler.
    destruct (validationPasses body); simpl; [| done].
    destruct (findDuplicate db id) as [[d c]|]; [| done].
    destruct (validateResolve body); [| done].
    destruct (deleteRequested body); [| done].
    destruct (deleteMissingPerson _ _); [| done]. by destruct c. }
  assert (validationPasses body = false → refused) as Hback.
  { intros Hf. subst refused. rewrite resolveRoute_unfold.
    by rewrite (proj1 (resolveHandler_400 env db user now id body) Hf). }
  assert (refused → validationPasses body = false) as Hforth.
  { intros H. apply Hsnd. subst refused. by rewrite H. }
  split.
  { rewrite <- validationPasses_false. by split. }
  split; [by intros H; apply Hback, Hsnd |].
  repeat split; intros; apply Hback; unfold validationPasses;
    repeat match goal with E : _ = _ |- _ => rewrite E end;
    rewrite ?andb_false_r; done.
Qed.

Lemma resolve_rejects_invalid_body_witness :
  snd (resolveRoute testEnv confirmedDb moderator 200 (js "/dup0/resolve")
         (js "dup0")
         {| bodyStatus := Some (JsString (js "REJEITADO"));
            bodyResolutionNotes := Some JsNull;
            bodyDeleteDuplicate := None |})
  = Resolve400.
Proof.
  pose proof (proj1 (proj2 (proj2 (proj2 (proj2
    (resolve_rejects_invalid_body testEnv confirmedDb moderator 200
       (js "/dup0/resolve") (js "dup0")
       {| bodyStatus := Some (JsString (js "REJEITADO"));
          bodyResolutionNotes := Some JsNull;
          bodyDeleteDuplicate := None |}))))) eq_refl) as H.
  exact (f_equal snd H).
Defined.




(** X18.  Whatever its outcome, a resolve request adds no pair, and in the
    pairs it leaves it has changed neither the id, nor the two case ids,
    nor the score, nor the detection data; a pair with another id is left
    exactly as it was. *)
Theorem resolve_keeps_detection_data (env : Env) (db : Db) (user : jsstring)
    (now : Z) (path id : jsstring) (body : ResolveBody) :
  ∀ row', row' ∈ duplicateCase (fst (resolveRoute env db user now path id body)) →
    ∃ row, row ∈ duplicateCase db
      ∧ dc_id row' = dc_id row
      ∧ originalCaseId row' = originalCaseId row
      ∧ duplicateCaseId row' = duplicateCaseId row
      ∧ similarityScore row' = similarityScore row
      ∧ detectedBy row' = detectedBy row
      ∧ detectedAt row' = detectedAt row
      ∧ (dc_id row ≠ id → row' = row).
Proof.
  intros row'. rewrite resolveRoute_unfold. simpl.
  assert (∀ st notes,
    row' ∈ duplicateCase (updateDuplicate db id
                            (resolveData st user now notes)) →
    ∃ row, row ∈ duplicateCase db
      ∧ dc_id row' = dc_id row
      ∧ originalCaseId row' = originalCaseId row
      ∧ duplicateCaseId row' = duplicateCaseId row
      ∧ similarityScore row' = similarityScore row
      ∧ detectedBy row' = detectedBy row
      ∧ detectedAt row' = detectedAt row
      ∧ (dc_id row ≠ id → row' = row)) as Hupd.
  { intros st notes Hin. unfold updateDuplicate in Hin. simpl in Hin.
    apply list_elem_of_fmap in Hin as (row & -> & Hrow).
    exists row. split; [done |]. by destruct (decide _). }
  destruct (resolveHandler_db env db user now id body)
    as [-> | (st & notes & [-> | (cid & db2 & Hdel & Hdb)])].
  - intros Hin. exists row'. by repeat split.
  - apply Hupd.
  - apply deleteMissingPerson_Some in Hdel as (_ & Hd & _).
    intros Hin. apply (Hupd st notes).
    assert (row' ∈ duplicateCase db2) as Hin2.
    { destruct Hdb as [<- | [entry Hdb]]; [done |]. by rewrite Hdb in Hin. }
    rewrite Hd in Hin2. by apply list_elem_of_filter in Hin2 as [_ ?].
Qed.

Lemma resolve_keeps_detection_data_witness :
  ∃ row, row ∈ duplicateCase confirmedDb
    ∧ dc_id row = js "dup0"
    ∧ originalCaseId row = js "a"
    ∧ duplicateCaseId row = js "b"
    ∧ detectedAt row = 100%Z.
Proof.
  destruct (resolve_keeps_detection_data testEnv confirmedDb moderator 200
              (js "/dup0/resolve") (js "dup0") rejectBody
              (resolveData REJEITADO moderator 200 (Some (js "engano"))
                 confirmedPair))
    as (row & Hrow & Hid & Ho & Hd & _ & _ & Hat & _).
  { vm_compute. constructor. }
  exists row. repeat split; [exact Hrow | | | |].
  - exact (eq_sym Hid).
  - exact (eq_sym Ho).
  - exact (eq_sym Hd).
  - exact (eq_sym Hat).
Defined.

(** X19.  When a confirmed pair is resolved with a deletion request and
    its second case is in the store, the answer is 200 with the updated
    pair, but that pair is no longer in the registry: the deletion takes
    with it every pair that names the deleted case on either side, and
    leaves the other pairs with another id as they were. *)
Theorem resolve_deletion_cascades (env : Env) (db : Db) (user : jsstring)
    (now : Z) (path id : jsstring) (body : ResolveBody)
    (newStatus : DuplicateStatus) (d : DuplicateCase) (c : MissingPerson) :
  validateResolve body = Some newStatus →
  findDuplicate db id = Some (d, Some c) →
  deleteRequested body = true →
  let updated := resolveData newStatus user now (notesToStore body) d in
  ∃ db',
    resolveRoute env db user now path id body
    = (db', Resolve200 updated (js "Caso duplicado confirmado e removido"))
    ∧ (updated ∉ duplicateCase db')
    ∧ (∀ row, row ∈ duplicateCase db' →
         originalCaseId row ≠ duplicateCaseId d
         ∧ duplicateCaseId row ≠ duplicateCaseId d)
    ∧ (∀ row, row ∈ duplicateCase db →
         dc_id row ≠ id →
         originalCaseId row ≠ duplicateCaseId d →
         duplicateCaseId row ≠ duplicateCaseId d →
         row ∈ duplicateCase db').
Proof.
  intros Hv Hf Hdel updated.
  pose proof (findDuplicate_inv _ _ _ _ Hf) as [_ Hc]. symmetry in Hc.
  rewrite resolveRoute_unfold,
    (resolveHandler_found _ _ _ _ _ _ _ _ _ Hv Hf), Hdel.
  unfold deleteMissingPerson.
  replace (findCase (updateDuplicate db id _) (duplicateCaseId d))
    with (findCase db (duplicateCaseId d)) by done.
  rewrite Hc. simpl. eexists. split; [done |]. simpl.
  assert (∀ row,
    row ∈ filter (λ x, originalCaseId x ≠ duplicateCaseId d
                       ∧ duplicateCaseId x ≠ duplicateCaseId d)
            (map (λ x, if decide (dc_id x = id)
                       then resolveData newStatus user now
                              (notesToStore body) x
                       else x) (duplicateCase db)) →
    originalCaseId row ≠ duplicateCaseId d
    ∧ duplicateCaseId row ≠ duplicateCaseId d) as Hrefs
    by (by intros row [? _]%list_elem_of_filter).
  split; [| split; [done |]].
  - intros Hin. apply Hrefs in Hin as [_ Hin]. by apply Hin.
  - intros row Hrow Hid Ho Hdup. apply list_elem_of_filter. split; [done |].
    apply list_elem_of_fmap. exists row. split; [| done].
    by destruct (decide _).
Qed.

Lemma resolve_deletion_cascades_witness :
  ∃ db',
    resolveRoute testEnv confirmedDb moderator 200 (js "/dup0/resolve") (js "dup0")
      confirmAndDeleteBody
    = (db',
       Resolve200 (resolveData CONFIRMADO moderator 200 None confirmedPair)
         (js "Caso duplicado confirmado e removido"))
    ∧ duplicateCase db' = [].
Proof.
  destruct (resolve_deletion_cascades testEnv confirmedDb moderator 200
              (js "/dup0/resolve") (js "dup0") confirmAndDeleteBody CONFIRMADO confirmedPair maria2
              eq_refl eq_refl eq_refl) as (db' & Hrun & _).
  exists db'. split; [exact Hrun |].
  pose proof (f_equal fst Hrun) as E. simpl in E. subst db'.
  vm_compute. reflexivity.
Defined.

(** ** The audit trail *)

(** X20.  The audit log only grows.  A detection pass appends one
    [DETECT_DUPLICATES] entry for the caller whether it answers 200 or
    500; a resolve request appends its [RESOLVE_DUPLICATE] entry last
    whether it answers 200, 400, 404 or 500, with the id of the pair as
    [entityId] and the path as it was sent in [details], preceded by one
    [DELETE_DUPLICATE_CASE] entry for the removed case exactly when it
    answers that the case was removed; the listing appends nothing. *)
Theorem audit_log_only_grows (env : Env) (db : Db) :
  (∀ user now threshold,
     auditLog (fst (detectRoute env db user now threshold))
     = auditLog db
       ++ [{| userId := Some user;
              action := js "DETECT_DUPLICATES";
              entityType := Some (js "CASE");
              entityId := None;
              details := Some (js "DETECT_DUPLICATES - POST /detect") |}])
  ∧ (∀ user now path id body,
       ∃ extra,
         auditLog (fst (resolveRoute env db user now path id body))
         = auditLog db ++ extra
           ++ [{| userId := Some user;
                  action := js "RESOLVE_DUPLICATE";
                  entityType := Some (js "CASE");
                  entityId := Some id;
                  details :=
                    Some (js "RESOLVE_DUPLICATE - PATCH " ++ path) |}]
         ∧ ((extra = []
             ∧ ∀ d, snd (resolveRoute env db user now path id body)
                    ≠ Resolve200 d (js "Caso duplicado confirmado e removido"))
            ∨ ∃ d c st,
                extra
                = [{| userId := Some user;
                      action := js "DELETE_DUPLICATE_CASE";
                      entityType := Some (js "CASE");
                      entityId := Some (duplicateCaseId d);
                      details :=
                        Some (js "Caso duplicado deletado: "
                              ++ default (js "null") (fullName c)) |}]
                ∧ findDuplicate db id = Some (d, Some c)
                ∧ snd (resolveRoute env db user now path id body)
                  = Resolve200
                      (resolveData st user now (notesToStore body) d)
                      (js "Caso duplicado confirmado e removido")))
  ∧ (∀ queryStatus, auditLog (fst (listRoute db queryStatus)) = auditLog db).
Proof.
  split; [| split].
  - intros user now threshold. rewrite detectRoute_unfold.
    destruct (scoreAll _ _ _) as [dups|]; [| done].
    destruct (persistDuplicates _ _ _ _ _ _) as [db1 res] eqn:Hp.
    apply persistDuplicates_frame in Hp as (_ & Ha & _).
    destruct res; simpl; by rewrite Ha.
  - intros user now path id body. rewrite resolveRoute_unfold.
    unfold resolveHandler.
    destruct (validationPasses body); simpl;
      [| exists []; split; [done | left; by split]].
    destruct (findDuplicate db id) as [[d c]|] eqn:Hf;
      [| exists []; split; [done | left; by split]].
    destruct (validateResolve body) as [st|];
      [| exists []; split; [done | left; by split]].
    destruct (deleteRequested body);
      [| exists []; split; [done | left; split; [done |]];
         simpl; intros d' [= _ E]; vm_compute in E; discriminate].
    destruct (deleteMissingPerson _ _) as [db2|] eqn:Hdel;
      [| exists []; split; [done | left; by split]].
    apply deleteMissingPerson_Some in Hdel as (_ & _ & Ha).
    destruct c as [c|];
      [| exists []; split; [simpl; by rewrite Ha | left; by split]].
    exists [deleteEntry user d c]. simpl. split.
    + rewrite Ha. simpl. by rewrite <- app_assoc.
    + right. by exists d, c, st.
  - intros q. by rewrite listRoute_readonly.
Qed.

(** ** GET / *)







(** ** The routes behind [requireAuth] *)

Lemma requireAuth_Authorized aenv roles req payload :
  roles ≠ [] →
  requireAuth aenv roles req = Authorized payload
  ↔ holdsToken aenv roles req payload.
Proof.
  intros Hroles. unfold requireAuth, holdsToken. split.
  - destruct (requestToken req) as [[|u token]|]; try done.
    destruct (jwtSecret aenv) as [[|v secret]|]; try done.
    destruct (jwtVerify aenv _ _) as [p|] eqn:Hv; [| done].
    destruct (length roles =? 0) eqn:Hlen; simpl.
    { apply Nat.eqb_eq in Hlen. by destruct roles. }
    case_bool_decide as Hin; simpl; [| done]. intros [= <-].
    by exists (u :: token), (v :: secret).
  - intros (token & secret & -> & Ht & -> & Hs & Hv & Hin).
    destruct token as [|u token]; [done |].
    destruct secret as [|v secret]; [done |]. rewrite Hv.
    rewrite (bool_decide_eq_true_2 _ Hin). by rewrite andb_false_r.
Qed.

(** X22.  The three routes of the duplicates router serve a request only
    if it carries a non-empty token that [jwt.verify] accepts under the
    configured, non-empty secret with the role MODERADOR or ADMIN; every
    other request is denied and leaves the database exactly as it was,
    without an audit entry. *)
Theorem endpoints_serve_moderators_only (aenv : AuthEnv) (env : Env)
    (db : Db) (req : Credentials) (now : Z) (threshold : option Q)
    (path id : jsstring) (body : ResolveBody) (queryStatus : option jsstring) :
  (∀ db' r,
     detectEndpoint aenv env db req now threshold = (db', Served r) →
     ∃ payload, holdsToken aenv moderatorRoles req payload)
  ∧ (∀ db' r,
       resolveEndpoint aenv env db req now path id body = (db', Served r) →
       ∃ payload, holdsToken aenv moderatorRoles req payload)
  ∧ (∀ db' r,
       listEndpoint aenv db req queryStatus = (db', Served r) →
       ∃ payload, holdsToken aenv moderatorRoles req payload)
  ∧ ((∀ payload, ¬ holdsToken aenv moderatorRoles req payload) →
     ∃ why,
       detectEndpoint aenv env db req now threshold = (db, Denied why)
       ∧ resolveEndpoint aenv env db req now path id body = (db, Denied why)
       ∧ listEndpoint aenv db req queryStatus = (db, Denied why)).
Proof.
  assert (∀ R (route : jsstring → Db * R) db' r,
    behindAuth aenv moderatorRoles req db route = (db', Served r) →
    ∃ payload, holdsToken aenv moderatorRoles req payload) as Hserved.
  { intros R route db' r. unfold behindAuth.
    destruct (requireAuth aenv moderatorRoles req) as [| | |p] eqn:E; try done.
    intros _. exists p. by apply requireAuth_Authorized in E. }
  split; [apply Hserved |]. split; [apply Hserved |].
  split; [apply Hserved |].
  intros Hnone. unfold detectEndpoint, resolveEndpoint, listEndpoint, behindAuth.
  destruct (requireAuth aenv moderatorRoles req) as [| | |p] eqn:E;
    try (by eexists).
  apply requireAuth_Authorized in E; [| done]. by apply Hnone in E.
Qed.

Lemma endpoints_serve_moderators_only_witness :
  (∀ payload,
     ¬ holdsToken sampleAuth moderatorRoles (bearer "tok-fam") payload)
  ∧ detectEndpoint sampleAuth testEnv mariaDb (bearer "tok-fam") 100 None
    = (mariaDb, Denied Forbidden).
Proof.
  assert (∀ payload,
    ¬ holdsToken sampleAuth moderatorRoles (bearer "tok-fam") payload) as H.
  { intros p (token & secret & Ht & _ & Hs & _ & Hv & Hin).
    injection Ht as <-. injection Hs as <-. vm_compute in Hv.
    injection Hv as <-. simpl in Hin. unfold moderatorRoles in Hin.
    repeat (apply elem_of_cons in Hin as [Hin | Hin]; [discriminate |]).
    by apply elem_of_nil in Hin. }
  split; [exact H |].
  destruct (proj2 (proj2 (proj2 (endpoints_serve_moderators_only sampleAuth
              testEnv mariaDb (bearer "tok-fam") 100 None [] [] rejectBody None)))
              H) as (why & Hd & _).
  rewrite Hd. f_equal. f_equal.
  assert (detectEndpoint sampleAuth testEnv mariaDb (bearer "tok-fam") 100 None
          = (mariaDb, Denied Forbidden)) as E by (vm_compute; reflexivity).
  rewrite Hd in E. by injection E.
Defined.

(** X23.  A served detection or resolve request acts for the [sub] of the
    verified token: the rows a detection pass inserts carry it as
    [detectedBy], and a resolved pair carries it as [resolvedBy]. *)
Theorem endpoints_act_for_token_subject (aenv : AuthEnv) (env : Env)
    (db : Db) (req : Credentials) (now : Z) :
  (∀ threshold db' created total,
     detectEndpoint aenv env db req now threshold
       = (db', Served (Detect200 created total)) →
     ∃ payload, holdsToken aenv moderatorRoles req payload
       ∧ ∀ row, row ∈ created → detectedBy row = Some (sub payload))
  ∧ (∀ path id body db' updated message,
       resolveEndpoint aenv env db req now path id body
         = (db', Served (Resolve200 updated message)) →
       ∃ payload, holdsToken aenv moderatorRoles req payload
         ∧ resolvedBy updated = Some (sub payload)
         ∧ resolvedAt updated = Some now).
Proof.
  split.
  - intros threshold db' created total. unfold detectEndpoint, behindAuth.
    destruct (requireAuth aenv moderatorRoles req) as [| | |p] eqn:E; try done.
    apply requireAuth_Authorized in E; [| done].
    assert (snd (detectHandler env db (sub p) now threshold)
            = Detect200 created total →
            ∀ row, row ∈ created → detectedBy row = Some (sub p)) as Hh.
    { unfold detectHandler. destruct (scoreAll _ _ _) as [dups|]; [| done].
      destruct (persistDuplicates _ _ _ _ _ _) as [db1 [acc|]] eqn:Hp;
        [| done].
      intros [= <- _].
      apply persistDuplicates_frame in Hp as (_ & _ & new & _ & Hacc & Hall).
      rewrite (Hacc acc eq_refl). simpl. rewrite Forall_forall in Hall.
      intros row Hrow. by apply Hall in Hrow as (_ & ? & _). }
    intros H. exists p. split; [done |]. apply Hh.
    unfold detectRoute in H.
    destruct (sub p); destruct (detectHandler _ _ _ _ _) as [d1 r1];
      by injection H as _ <-.
  - intros path id body db' updated message. unfold resolveEndpoint, behindAuth.
    destruct (requireAuth aenv moderatorRoles req) as [| | |p] eqn:E; try done.
    apply requireAuth_Authorized in E; [| done].
    assert (snd (resolveHandler env db (sub p) now id body)
            = Resolve200 updated message →
            resolvedBy updated = Some (sub p)
            ∧ resolvedAt updated = Some now) as Hh.
    { unfold resolveHandler. destruct (validationPasses body); [| done]. simpl.
      destruct (findDuplicate db id) as [[d c]|]; [| done].
      destruct (validateResolve body) as [st|]; [| done].
      destruct (deleteRequested body); [| by intros [= <- _]].
      destruct (deleteMissingPerson _ _); [| done].
      destruct c; [| done]. by intros [= <- _]. }
    intros H. exists p. split; [done |]. apply Hh.
    unfold resolveRoute in H.
    destruct (sub p); destruct (resolveHandler _ _ _ _ _ _) as [d1 r1];
      by injection H as _ <-.
Qed.

Lemma endpoints_act_for_token_subject_witness :
  ∃ payload,
    holdsToken sampleAuth moderatorRoles (bearer "tok-mod") payload
    ∧ resolvedBy (resolveData REJEITADO (js "mod") 200 (Some (js "engano"))
                    confirmedPair)
      = Some (sub payload).
Proof.
  destruct (proj2 (endpoints_act_for_token_subject sampleAuth testEnv
                     confirmedDb (bearer "tok-mod") 200)
              (js "/dup0/resolve") (js "dup0") rejectBody
              (fst (resolveEndpoint sampleAuth testEnv confirmedDb
                      (bearer "tok-mod") 200 (js "/dup0/resolve") (js "dup0")
                      rejectBody))
              (resolveData REJEITADO (js "mod") 200 (Some (js "engano"))
                 confirmedPair)
              (js "Status atualizado"))
    as (payload & Hh & Hby & _).
  { vm_compute. reflexivity. }
  exists payload. split; [exact Hh | exact Hby].
Defined.

(** ** POST /broadcast and [pushAlert] *)











(** ** [requireAuth] on its own *)

(** X26.  A request whose [Authorization] header starts with [Bearer ] is
    judged by the rest of that header alone: its cookie is never looked
    at, so a bad header token is not rescued by a good cookie.  Any other
    request is judged by its cookie alone.  Without a list of roles no
    request is answered 403. *)
Theorem requireAuth_header_before_cookie (aenv : AuthEnv)
    (roles : list jsstring) (req : Credentials) :
  (∀ header, authorization req = Some header →
     startsWith header (js "Bearer ") = true →
     requireAuth aenv roles req
     = requireAuth aenv roles
         {| authorization := None;
            cookieToken := Some (substring header 7) |})
  ∧ ((∀ header, authorization req = Some header →
        startsWith header (js "Bearer ") = false) →
     requireAuth aenv roles req
     = requireAuth aenv roles
         {| authorization := None; cookieToken := cookieToken req |})
  ∧ (roles = [] → requireAuth aenv roles req ≠ Forbidden).
Proof.
  unfold requireAuth, requestToken. split; [| split].
  - intros header -> ->. done.
  - intros Hno. destruct (authorization req) as [header|]; [| done].
    by rewrite (Hno header eq_refl).
  - intros ->. simpl.
    destruct (match authorization req with Some _ => _ | None => _ end)
      as [[|u token]|]; try done.
    destruct (jwtSecret aenv) as [[|v secret]|]; try done.
    by destruct (jwtVerify aenv _ _).
Qed.

Lemma requireAuth_header_before_cookie_witness :
  requireAuth sampleAuth moderatorRoles
    {| authorization := Some (js "Bearer expired");
       cookieToken := Some (js "tok-mod") |}
  = InvalidSession.
Proof.
  rewrite (proj1 (requireAuth_header_before_cookie sampleAuth moderatorRoles
                    {| authorization := Some (js "Bearer expired");
                       cookieToken := Some (js "tok-mod") |})
             (js "Bearer expired") eq_refl eq_refl).
  vm_compute. reflexivity.
Defined.

(** ** The threshold of POST /detect *)

Local Open Scope Q_scope.

(** C7, as the code has it.  The threshold is not validated: whatever
    number is sent, inside [0, 1] or not, the approved cases are read and
    every pair of them is scored against it, and when no insertion fails
    the call answers 200 with the rows it inserted: one for each scored
    pair that reaches the threshold and was not registered before.  So a
    threshold above 1 inserts nothing, and with a threshold of 0 or less
    every scored pair is registered afterwards. *)
Theorem detect_accepts_any_threshold (env : Env) (db : Db) (user : jsstring)
    (now : Z) (threshold : option Q) :
  (∀ o d, createFails env o d = false) →
  let t := default 0.7 threshold in
  let cases := findApprovedCases db in
  let after := fst (detectRoute env db user now threshold) in
  ∃ created,
    snd (detectRoute env db user now threshold)
      = Detect200 created (length created)
    ∧ duplicateCase after = duplicateCase db ++ created
    ∧ (∀ i j c1 c2,
         (i < j)%nat → cases !! i = Some c1 → cases !! j = Some c2 →
         ∃ q, pairScore env c1 c2 = Some q
           ∧ (t <= q →
              is_Some (findUniquePair after (mp_id c1) (mp_id c2))
              ∧ (findUniquePair db (mp_id c1) (mp_id c2) = None →
                 ∃ row, row ∈ created
                   ∧ originalCaseId row = mp_id c1
                   ∧ duplicateCaseId row = mp_id c2)))
    ∧ (∀ row, row ∈ created →
         ∃ i j c1 c2,
           (i < j)%nat ∧ cases !! i = Some c1 ∧ cases !! j = Some c2
           ∧ originalCaseId row = mp_id c1
           ∧ duplicateCaseId row = mp_id c2
           ∧ pairScore env c1 c2 = Some (similarityScore row)
           ∧ t <= similarityScore row)
    ∧ (1 < t → created = [])
    ∧ (t <= 0 →
       ∀ i j c1 c2,
         (i < j)%nat → cases !! i = Some c1 → cases !! j = Some c2 →
         is_Some (findUniquePair after (mp_id c1) (mp_id c2))
         ∧ (findUniquePair db (mp_id c1) (mp_id c2) = None →
            ∃ row, row ∈ created
              ∧ originalCaseId row = mp_id c1
              ∧ duplicateCaseId row = mp_id c2)).
Proof.
  intros Hok t cases after.
  destruct (detectRoute_total env db user now threshold Hok)
    as (dups & db' & created & Hscore & Hp & Hrun).
  fold t cases in Hscore.
  assert (duplicateCase after = duplicateCase db') as Hafter
    by (subst after; by rewrite Hrun).
  destruct (scoreAll_elem env t cases) as (l & Hl & Helem).
  assert (l = dups) as -> by congruence.
  pose proof (persistDuplicates_new_rows _ _ _ _ _ _ _ _ Hp)
    as (new & Hd & Hall).
  pose proof (persistDuplicates_frame _ _ _ _ _ _ _ _ Hp)
    as (_ & _ & new' & Hd' & Hacc & _).
  assert (new' = new) as -> by (rewrite Hd in Hd'; by apply app_inv_head in Hd').
  rewrite (Hacc created eq_refl) in *. simpl in *.
  assert (∀ i j c1 c2 q,
    (i < j)%nat → cases !! i = Some c1 → cases !! j = Some c2 →
    pairScore env c1 c2 = Some q → t <= q →
    is_Some (findUniquePair after (mp_id c1) (mp_id c2))
    ∧ (findUniquePair db (mp_id c1) (mp_id c2) = None →
       ∃ row, row ∈ new
         ∧ originalCaseId row = mp_id c1
         ∧ duplicateCaseId row = mp_id c2)) as Hreg.
  { intros i j c1 c2 q Hij Hi Hj Hq Hle.
    assert ({| candOriginalCaseId := mp_id c1;
               candDuplicateCaseId := mp_id c2;
               candSimilarityScore := q |} ∈ dups) as Hin.
    { apply Helem. exists i, j, c1, c2, q. repeat split; try done.
      by apply Qle_bool_iff. }
    destruct (persistDuplicates_registered _ _ _ _ _ _ _ _ Hp _ Hin)
      as (row & Hrow & Hk).
    simpl in Hk. split.
    - destruct (findUniquePair after (mp_id c1) (mp_id c2)) eqn:E;
        [by eexists |].
      exfalso. rewrite (findUniquePair_ext after db') in E by done.
      by eapply findUniquePair_elem.
    - intros Hnone. rewrite Hd in Hrow.
      apply elem_of_app in Hrow as [Hrow | Hrow].
      + exfalso. by eapply findUniquePair_elem.
      + exists row. injection Hk as Ho Hdup. done. }
  exists new. split; [by rewrite Hrun |]. split; [congruence |].
  split; [| split; [| split]].
  - intros i j c1 c2 Hij Hi Hj.
    destruct (pairScore_range env c1 c2) as (q & Hq & _).
    exists q. split; [done |]. intros Hle. by eapply Hreg.
  - intros row Hrow. rewrite Forall_forall in Hall.
    destruct (Hall row Hrow) as (_ & _ & c & Hc & Hk & Hs).
    apply Helem in Hc as (i & j & c1 & c2 & q & Hij & Hi & Hj & Hq & Hle & ->).
    simpl in Hk, Hs. injection Hk as Ho Hdup.
    exists i, j, c1, c2. repeat split; try done; rewrite Hs; [done |].
    by apply Qle_bool_iff.
  - intros Ht.
    pose proof (scoreAll_above_one env t cases Ht) as E.
    assert (dups = []) as -> by congruence.
    destruct new as [|row new]; [done |]. exfalso.
    rewrite Forall_forall in Hall.
    destruct (Hall row) as (_ & _ & c & Hc & _); [by left |].
    by apply elem_of_nil in Hc.
  - intros Ht i j c1 c2 Hij Hi Hj.
    destruct (pairScore_range env c1 c2) as (q & Hq & Hr).
    eapply Hreg; try done. lra.
Qed.

Lemma detect_accepts_any_threshold_witness :
  ∃ created,
    snd (detectRoute testEnv mariaDb moderator 100 (Some (-1)))
      = Detect200 created (length created)
    ∧ ∃ row, row ∈ created
        ∧ originalCaseId row = js "a" ∧ duplicateCaseId row = js "c".
Proof.
  destruct (detect_accepts_any_threshold testEnv mariaDb moderator 100
              (Some (-1)) (λ _ _, eq_refl))
    as (created & Hrun & _ & _ & _ & _ & Hall).
  exists created. split; [exact Hrun |].
  destruct (Hall ltac:(discriminate) 0%nat 2%nat maria1 maria3
              ltac:(lia) eq_refl eq_refl) as [_ Hrow].
  exact (Hrow eq_refl).
Defined.

Local Close Scope Q_scope.

(** C7 as stated fails: the thresholds 1.1 and -1 are outside [0, 1], and
    both calls are answered 200; the second one has scored the three pairs
    and inserted three rows. *)
Lemma threshold_counterexample :
  snd (detectRoute testEnv mariaDb moderator 100 (Some 1.1%Q))
    = Detect200 [] 0
  ∧ (∃ created,
       snd (detectRoute testEnv mariaDb moderator 100 (Some (-1)%Q))
         = Detect200 created 3)
  ∧ length (duplicateCase
              (fst (detectRoute testEnv mariaDb moderator 100
                      (Some (-1)%Q)))) = 3.
Proof.
  split; [vm_compute; reflexivity |].
  split; [eexists; vm_compute; reflexivity | vm_compute; reflexivity].
Qed.
